(** * spotify-popularity-playlist: the deduplication engine and the chunker

    A shallow embedding of [deduplicate_by_name_and_add_popularity],
    [chunks], [simplified_artist_albums] and [create_top_tracks_playlist]
    from [spotify_popularity_playlist/popularity_playlist.py] and of
    [get_version] from [setup.py], together with the properties stated about
    them.

    Conventions.
    - A Python [int] is a [Z]; a [str] is a [string]; a [list] is a [list].
    - A Python [dict] is an association list in insertion order with unique
      keys: assigning to a key that is present replaces the value in place,
      assigning to a new key appends it.  The order matters because
      [process.extract] walks [choices.items()].
    - A raised exception is the left injection of [result].
    - A generator is the finite list of the values it yields.
    - A call to the Spotify client is answered by a function that is a
      parameter, and is recorded in a log, in the order the calls are made.
    - [sorted(..., reverse=True)] is stable; it is embedded as a stable
      insertion sort, which computes the same list as any other stable sort. *)

From Stdlib Require Import String ZArith Bool Lia Permutation Sorted List.
Import ListNotations.

Local Open Scope string_scope.
Local Open Scope Z_scope.
Local Open Scope list_scope.

(** ** Exceptions *)

Inductive py_error : Type :=
| KeyError (key : string)
| ValueError.

Definition result (A : Type) : Type := (py_error + A)%type.

Definition ret {A : Type} (x : A) : result A := inr x.

Definition bind {A B : Type} (m : result A) (k : A -> result B) : result B :=
  match m with
  | inl e => inl e
  | inr x => k x
  end.

Notation "x <- m ;; k" := (bind m (fun x => k))
  (at level 61, m at next level, right associativity).

Fixpoint mapM {A B : Type} (f : A -> result B) (l : list A) : result (list B) :=
  match l with
  | [] => ret []
  | x :: l' => y <- f x ;; ys <- mapM f l' ;; ret (y :: ys)
  end.

(** ** Data model ([spotify_types.py]) *)

(**[Album]: the engine reads ["id"], ["name"] and ["popularity"], and a
    record is taken to have these three keys; the other keys of the TypedDict
    travel with the record untouched and are represented by [album_type],
    [release_date], [total_tracks] and [uri]. *)
Record Album : Type := mkAlbum {
  id : string;
  name : string;
  popularity : Z;
  album_type : string;
  release_date : string;
  total_tracks : Z;
  uri : string
}.

(** [AlbumMatch(NamedTuple)] *)
Record AlbumMatch : Type := mkAlbumMatch {
  album_name : string;
  score : Z;
  album_id : string
}.

(** ** Python dictionaries, in insertion order *)

Section Dict.
Context {V : Type}.

Definition dict : Type := list (string * V).

(** [d[k] = v] *)
Fixpoint dict_set (k : string) (v : V) (d : dict) : dict :=
  match d with
  | [] => [(k, v)]
  | (k', v') :: d' =>
      if String.eqb k' k then (k, v) :: d' else (k', v') :: dict_set k v d'
  end.

(** [d[k]] *)
Fixpoint dict_get (d : dict) (k : string) : result V :=
  match d with
  | [] => inl (KeyError k)
  | (k', v') :: d' => if String.eqb k' k then ret v' else dict_get d' k
  end.

Definition keys (d : dict) : list string := map fst d.
End Dict.

Arguments dict V : clear implicits.

(** One assignment of a comprehension: [d[key(x)] = val(x)]. *)
Definition assign {A V : Type} (key : A -> string) (val : A -> V)
    (d : dict V) (x : A) : dict V :=
  dict_set (key x) (val x) d.

(** [{key(x): val(x) for x in xs}] *)
Definition dict_comprehension {A V : Type}
    (key : A -> string) (val : A -> V) (xs : list A) : dict V :=
  fold_left (assign key val) xs [].

(** ** [sorted(xs, key=key, reverse=True)] *)

Section SortedDesc.
Context {A : Type} (key : A -> Z).

(** [x] stood before every element of [l] in the unsorted list, so it goes
    in front of the first element whose key is not greater than its own. *)
Fixpoint insert_desc (x : A) (l : list A) : list A :=
  match l with
  | [] => [x]
  | y :: l' => if key x <? key y then y :: insert_desc x l' else x :: y :: l'
  end.

Fixpoint sorted_desc (l : list A) : list A :=
  match l with
  | [] => []
  | x :: l' => insert_desc x (sorted_desc l')
  end.
End SortedDesc.

(** ** The fuzzy matcher: [fuzzywuzzy.process.extract]

    The repository imports [process.extract] and calls it with a dictionary of
    choices, [limit=None] and a scorer.  What the library does on that call:
    [extractWithoutOrder] processes the query, processes each choice, scores
    the pair, and yields [(choice, score, key)] for every item of
    [choices.items()] whose score reaches [score_cutoff], which is [0] by
    default; [extract] with [limit=None] returns those triples sorted by score,
    highest first.

    The query and the choices do not go through the same processing.  For a
    scorer of the library's own ([fuzz.token_set_ratio],
    [fuzz.token_sort_ratio]) the query goes through [full_process] and then
    through [full_process] with [force_ascii=True], a choice through the
    latter alone; for any other scorer both go through [full_process].  So
    the processing of the query, the processing of a choice and the scorer
    that is applied to the processed strings are three parameters here. *)

Section Engine.
Variable query_processor : string -> string.
Variable choice_processor : string -> string.
Variable scorer : string -> string -> Z.

Definition score_cutoff : Z := 0.

Definition extractWithoutOrder (query : string) (choices : dict string)
  : list (string * Z * string) :=
  let processed_query := query_processor query in
  flat_map
    (fun kc : string * string =>
       let (key, choice) := kc in
       let sc := scorer processed_query (choice_processor choice) in
       if score_cutoff <=? sc then [(choice, sc, key)] else [])
    choices.

Definition extract (query : string) (choices : dict string)
  : list (string * Z * string) :=
  sorted_desc (fun i => snd (fst i)) (extractWithoutOrder query choices).

(** ** [deduplicate_by_name_and_add_popularity] *)

(** Lines 101-109: the matches of one item against all names. *)
Definition album_matches (dupe_album_id_names_dict : dict string)
    (item : Album) : list AlbumMatch :=
  map (fun t : string * Z * string =>
         let '(album_name, score, album_id) := t in
         mkAlbumMatch album_name score album_id)
      (extract (name item) dupe_album_id_names_dict).

(** Lines 111-115: the matches above the threshold. *)
Definition filtered_album_matches (threshold : Z)
    (dupe_album_id_names_dict : dict string) (item : Album)
  : list AlbumMatch :=
  filter (fun album_match => threshold <? score album_match)
         (album_matches dupe_album_id_names_dict item).

Definition mem (k : string) (l : list string) : bool :=
  existsb (String.eqb k) l.

Definition is_empty {A : Type} (l : list A) : bool :=
  match l with [] => true | _ :: _ => false end.

(** Lines 118-122: the condition of the [if]. *)
Definition keeps (threshold : Z) (dupe_album_id_names_dict : dict string)
    (extractor_album_ids : list string) (item : Album) : bool :=
  let filtered := filtered_album_matches threshold
                    dupe_album_id_names_dict item in
  (List.length filtered =? 1)%nat
  || is_empty
       (map album_id
            (filter (fun i => mem (album_id i) extractor_album_ids)
                    filtered)).

(** Lines 99-123: one turn of the loop. *)
Definition loop_body (threshold : Z) (dupe_album_id_names_dict : dict string)
    (extractor_album_ids : list string) (item : Album) : list string :=
  if keeps threshold dupe_album_id_names_dict extractor_album_ids item
  then extractor_album_ids ++ [id item]
  else extractor_album_ids.

(** The loop, over [items], with the names dictionary fixed. *)
Definition run_loop (threshold : Z) (dupe_album_id_names_dict : dict string)
    (items : list Album) (start : list string) : list string :=
  fold_left (loop_body threshold dupe_album_id_names_dict) items start.

(** The list [extractor_album_ids] when the loop ends. *)
Definition extractor_album_ids (albums : list Album) (threshold : Z)
  : list string :=
  run_loop threshold (dict_comprehension id name albums) albums [].

Definition deduplicate_by_name_and_add_popularity
    (albums : list Album) (threshold : Z) : result (list Album) :=
  let album_id_dict := dict_comprehension id (fun album => album) albums in
  let extractor := extractor_album_ids albums threshold in
  if negb (List.length extractor =? List.length albums)%nat
  then
    found <- mapM (dict_get album_id_dict) extractor ;;
    ret (sorted_desc popularity found)
  else ret albums.
End Engine.

(** ** [chunks] *)

(** [len(range(start, stop, step))] for a step that is not zero. *)
Definition range_len (start stop step : Z) : Z :=
  if 0 <? step
  then (if start <? stop then (stop - start - 1) / step + 1 else 0)
  else (if stop <? start then (start - stop - 1) / (- step) + 1 else 0).

(** [range(start, stop, step)], which raises [ValueError] on a zero step. *)
Definition range (start stop step : Z) : result (list Z) :=
  if step =? 0 then inl ValueError
  else ret (map (fun i => start + Z.of_nat i * step)
                (seq 0 (Z.to_nat (range_len start stop step)))).

(** A slice bound, as Python clamps it: a negative bound counts from the
    end, and every bound is brought inside [0, len]. *)
Definition slice_bound (len i : Z) : Z :=
  if i <? 0 then Z.max 0 (i + len) else Z.min i len.

(** [list_[lo:hi]] *)
Definition slice {T : Type} (list_ : list T) (lo hi : Z) : list T :=
  let len := Z.of_nat (List.length list_) in
  skipn (Z.to_nat (slice_bound len lo))
        (firstn (Z.to_nat (slice_bound len hi)) list_).

(** The values the generator yields, or the exception it raises. *)
Definition chunks {T : Type} (list_ : list T) (chunk_size : Z)
  : result (list (list T)) :=
  idxs <- range 0 (Z.of_nat (List.length list_)) chunk_size ;;
  ret (map (fun idx => slice list_ idx (idx + chunk_size)) idxs).

(** ** The catalogue client and the calls made to it

    [Artist], [ArtistAlbums] follow [spotify_types.py].  The objects the
    client returns that the types module does not describe (the tracks listed
    inside a full album, the playlist that was created) get a record with the
    keys the code reads.  A full track is passed to the engine as an [Album],
    as the source does. *)

Record Artist : Type := mkArtist {
  artist_id : string;
  artist_name : string;
  artist_genres : list string;
  artist_popularity : Z;
  artist_uri : string
}.

(** [ArtistAlbums]: one page of a listing; ["next"] is [None] on the last
    page. *)
Record ArtistAlbums : Type := mkArtistAlbums {
  href : string;
  items : list Album;
  limit : Z;
  next : option string;
  offset : Z;
  total : Z
}.

(** An item of [album["tracks"]["items"]]. *)
Record SimplifiedTrack : Type := mkSimplifiedTrack {
  track_id : string;
  track_name : string;
  track_artists : list Artist
}.

(** A full album, with [tracks_items] for [album["tracks"]["items"]]. *)
Record FullAlbum : Type := mkFullAlbum {
  full_album : Album;
  tracks_items : list SimplifiedTrack
}.

Record Playlist : Type := mkPlaylist {
  playlist_id : string;
  playlist_name : string
}.

Definition ARTIST_CHUNK_SIZE : Z := 20.
Definition TRACK_CHUNK_SIZE : Z := 50.
Definition PLAYLIST_CHUNK_SIZE : Z := 100.

(** A call that leaves the program, in the order the program makes it. *)
Inductive call : Type :=
| Call_artist_albums (artist : string) (page_limit : Z)
| Call_next (page : ArtistAlbums)
| Call_albums (ids : list string)
| Call_tracks (ids : list string)
| Call_spotify_scope (scope_name : string)
| Call_user_playlist_create (user : string) (title : string)
| Call_playlist_add_items (playlist : string) (ids : list string)
| Call_print (artist : Artist).

(** How a run ends, with the calls made up to then.  [OutOfFuel] stands for
    a [while] loop that has not ended within the turns allowed. *)
Inductive outcome (A : Type) : Type :=
| Returned (x : A) (log : list call)
| Raised (e : py_error) (log : list call)
| OutOfFuel (log : list call).

Arguments Returned {A} x log.
Arguments Raised {A} e log.
Arguments OutOfFuel {A} log.

(** A piece of program: from the calls made so far to an outcome. *)
Definition prog (A : Type) : Type := list call -> outcome A.

Definition unit_ {A : Type} (x : A) : prog A := fun log => Returned x log.

Definition and_then {A B : Type} (m : prog A) (k : A -> prog B) : prog B :=
  fun log =>
    match m log with
    | Returned x log' => k x log'
    | Raised e log' => Raised e log'
    | OutOfFuel log' => OutOfFuel log'
    end.

Notation "x <<- m ;; k" := (and_then m (fun x => k))
  (at level 61, m at next level, right associativity).

(** A computation of the program itself, which may raise. *)
Definition lift {A : Type} (r : result A) : prog A :=
  fun log =>
    match r with
    | inl e => Raised e log
    | inr x => Returned x log
    end.

(** A call to the client, answered with [answer]. *)
Definition request {A : Type} (c : call) (answer : A) : prog A :=
  fun log => Returned answer (log ++ [c]).

(** [[f(x) for x in l]] *)
Fixpoint for_each {A B : Type} (f : A -> prog B) (l : list A)
  : prog (list B) :=
  match l with
  | [] => unit_ []
  | x :: l' => y <<- f x ;; ys <<- for_each f l' ;; unit_ (y :: ys)
  end.

Section Client.
(** What the client answers: the first page of an artist's albums, the page
    after a page, the full albums and the full tracks for a batch of
    identifiers, and the playlist it created. *)
Variable artist_albums : string -> Z -> ArtistAlbums.
Variable next_page : ArtistAlbums -> ArtistAlbums.
Variable albums_of : list string -> list FullAlbum.
Variable tracks_of : list string -> list Album.
Variable user_playlist_create : string -> string -> Playlist.

(** The processing of the matcher and [fuzz.token_sort_ratio]. *)
Variable query_processor : string -> string.
Variable choice_processor : string -> string.
Variable token_sort_ratio : string -> string -> Z.

(** ** [simplified_artist_albums]

    The list returned starts as the ["items"] of the first page and is
    extended with the items of each page fetched; [fuel] bounds the turns of
    the [while] loop. *)
Fixpoint simplified_artist_albums_loop (fuel : nat)
    (cur_page_simplified_artist_albums : ArtistAlbums)
    (all_simplified_artist_albums : list Album) : prog (list Album) :=
  match next cur_page_simplified_artist_albums with
  | None => unit_ all_simplified_artist_albums
  | Some _ =>
      match fuel with
      | O => fun log => OutOfFuel log
      | S fuel' =>
          cur_page <<- request (Call_next cur_page_simplified_artist_albums)
                         (next_page cur_page_simplified_artist_albums) ;;
          simplified_artist_albums_loop fuel' cur_page
            (all_simplified_artist_albums ++ items cur_page)
      end
  end.

Definition simplified_artist_albums (fuel : nat)
    (first_page_simplified_artist_albums : ArtistAlbums) : prog (list Album) :=
  simplified_artist_albums_loop fuel first_page_simplified_artist_albums
    (items first_page_simplified_artist_albums).

(** ** [create_top_tracks_playlist] *)

(** Line 186: the artist is among the artists of the track. *)
Definition by_artist (artist : Artist) (track : SimplifiedTrack) : bool :=
  mem (artist_id artist) (map artist_id (track_artists track)).

Definition create_top_tracks_playlist (fuel : nat) (username : string)
    (artist : Artist) : prog unit :=
  first_page <<- request (Call_artist_albums (artist_id artist) 50)
                   (artist_albums (artist_id artist) 50) ;;
  artist_album_list <<- simplified_artist_albums fuel first_page ;;
  let artist_album_ids := map id artist_album_list in
  album_ids_chunks <<- lift (chunks artist_album_ids ARTIST_CHUNK_SIZE) ;;
  album_batches <<- for_each
                      (fun album_ids_chunk =>
                         request (Call_albums album_ids_chunk)
                                 (albums_of album_ids_chunk))
                      album_ids_chunks ;;
  let artist_albums := concat album_batches in
  let artist_simplified_track_ids :=
    map track_id
        (filter (by_artist artist) (concat (map tracks_items artist_albums))) in
  track_ids_chunks <<-
    lift (chunks artist_simplified_track_ids TRACK_CHUNK_SIZE) ;;
  track_batches <<- for_each
                      (fun track_ids_chunk =>
                         request (Call_tracks track_ids_chunk)
                                 (tracks_of track_ids_chunk))
                      track_ids_chunks ;;
  let artist_tracks := concat track_batches in
  artist_tracks_by_popularity <<-
    lift (deduplicate_by_name_and_add_popularity query_processor choice_processor
      token_sort_ratio
            (sorted_desc popularity artist_tracks) 99) ;;
  _ <<- request (Call_spotify_scope "playlist-modify-public") tt ;;
  new_playlist <<-
    request (Call_user_playlist_create username
               (artist_name artist ++ " by Popularity")%string)
            (user_playlist_create username
               (artist_name artist ++ " by Popularity")%string) ;;
  playlist_chunks <<-
    lift (chunks (map id artist_tracks_by_popularity) PLAYLIST_CHUNK_SIZE) ;;
  _ <<- for_each
          (fun track_ids_chunk =>
             request (Call_playlist_add_items (playlist_id new_playlist)
                        track_ids_chunk) tt)
          playlist_chunks ;;
  request (Call_print artist) tt.
End Client.

(** ** [get_version] ([setup.py])

    The function reads a file and walks its lines; the lines are the input
    here.  [split] is [str.split] with a separator of one character, and
    [contains] is [in] for one character. *)

Inductive setup_error : Type :=
| RuntimeError (message : string)
| IndexError.

Definition double_quote : Ascii.ascii := Ascii.ascii_of_nat 34.
Definition single_quote : Ascii.ascii := Ascii.ascii_of_nat 39.

(** [c in s] *)
Fixpoint contains (c : Ascii.ascii) (s : string) : bool :=
  match s with
  | EmptyString => false
  | String c' s' => Ascii.eqb c' c || contains c s'
  end.

(** [s.split(sep)]: the pieces between the occurrences of [sep], one more
    than there are occurrences. *)
Fixpoint split (sep : Ascii.ascii) (s : string) : list string :=
  match s with
  | EmptyString => [EmptyString]
  | String c s' =>
      if Ascii.eqb c sep then EmptyString :: split sep s'
      else match split sep s' with
           | [] => [String c EmptyString]
           | piece :: pieces => String c piece :: pieces
           end
  end.

Fixpoint get_version (lines : list string) : setup_error + string :=
  match lines with
  | [] => inl (RuntimeError "Unable to find version string.")
  | line :: lines' =>
      if String.prefix "__version__" line
      then
        let sep := if contains double_quote line
                   then double_quote else single_quote in
        match nth_error (split sep line) 1 with
        | Some version => inr version
        | None => inl IndexError
        end
      else get_version lines'
  end.

(** ** Vocabulary of the properties *)

(** [Subseq l1 l2]: the elements of [l1] occur in [l2], in the same order. *)
Inductive Subseq {A : Type} : list A -> list A -> Prop :=
| Subseq_nil : Subseq [] []
| Subseq_skip (x : A) (l1 l2 : list A) : Subseq l1 l2 -> Subseq l1 (x :: l2)
| Subseq_keep (x : A) (l1 l2 : list A) :
    Subseq l1 l2 -> Subseq (x :: l1) (x :: l2).

(** Non-increasing order of the keys. *)
Definition desc {A : Type} (key : A -> Z) (a b : A) : Prop := key b <= key a.

(** The matcher and the filter of the engine, item by item of the names
    dictionary. *)
Section Matching.
Variable query_processor : string -> string.
Variable choice_processor : string -> string.
Variable scorer : string -> string -> Z.
Variable threshold : Z.

(** The score of a choice for a query. *)
Definition match_score (query choice : string) : Z :=
  scorer (query_processor query) (choice_processor choice).

(** The item is yielded by the matcher and passes the threshold. *)
Definition survives (query : string) (kc : string * string) : bool :=
  (score_cutoff <=? match_score query (snd kc))
  && (threshold <? match_score query (snd kc)).

Definition to_match (query : string) (kc : string * string) : AlbumMatch :=
  mkAlbumMatch (snd kc) (match_score query (snd kc)) (fst kc).

(** The items of the names dictionary that survive for [item]. *)
Definition near_duplicates (d : dict string) (item : Album)
  : list (string * string) :=
  filter (survives (name item)) d.

(** Over the names of [albums], the score does not depend on which name is
    the query and which the choice. *)
Definition symmetric_on (albums : list Album) : Prop :=
  forall a b,
    In a albums -> In b albums ->
    match_score (name a) (name b) = match_score (name b) (name a).

(** Over the names of [albums], no name scores higher against another name
    than against itself. *)
Definition self_maximal_on (albums : list Album) : Prop :=
  forall a b,
    In a albums -> In b albums ->
    match_score (name a) (name b) <= match_score (name a) (name a).
End Matching.

(** [Pages next_page p ps]: [ps] are the pages that follow [p], each the
    answer to the request for the page after the one before it, and the last
    of them (or [p] itself when there is none) names no next page. *)
Inductive Pages (next_page : ArtistAlbums -> ArtistAlbums)
  : ArtistAlbums -> list ArtistAlbums -> Prop :=
| Pages_last (p : ArtistAlbums) : next p = None -> Pages next_page p []
| Pages_more (p : ArtistAlbums) (u : string) (ps : list ArtistAlbums) :
    next p = Some u ->
    Pages next_page (next_page p) ps ->
    Pages next_page p (next_page p :: ps).

(** The batches of identifiers a log asks the albums of, asks the tracks
    of, and adds to a playlist. *)
Definition album_batches (log : list call) : list (list string) :=
  flat_map (fun c => match c with Call_albums ids => [ids] | _ => [] end) log.

Definition track_batches (log : list call) : list (list string) :=
  flat_map (fun c => match c with Call_tracks ids => [ids] | _ => [] end) log.

Definition added_batches (log : list call) : list (list string) :=
  flat_map (fun c => match c with
                     | Call_playlist_add_items _ ids => [ids]
                     | _ => []
                     end) log.

(** The batch of a call holds at least one identifier and no more than the
    size set for that kind of call. *)
Definition batch_within (c : call) : Prop :=
  match c with
  | Call_albums ids =>
      1 <= Z.of_nat (List.length ids) <= ARTIST_CHUNK_SIZE
  | Call_tracks ids =>
      1 <= Z.of_nat (List.length ids) <= TRACK_CHUNK_SIZE
  | Call_playlist_add_items _ ids =>
      1 <= Z.of_nat (List.length ids) <= PLAYLIST_CHUNK_SIZE
  | _ => True
  end.

(** A call that reads the catalogue. *)
Definition is_read (c : call) : Prop :=
  match c with
  | Call_artist_albums _ _ | Call_next _ | Call_albums _ | Call_tracks _ =>
      True
  | _ => False
  end.

(** ** Processors, scorers and records of the worked examples *)

(** The processor that leaves a string as it is. *)
Definition no_process (s : string) : string := s.

(** Full marks for equal strings, nothing otherwise. *)
Definition exact_scorer (s1 s2 : string) : Z :=
  if String.eqb s1 s2 then 100 else 0.

(** Full marks when the query begins the choice: not symmetric. *)
Definition prefix_scorer (s1 s2 : string) : Z :=
  if String.prefix s1 s2 then 100 else 0.

(** The lengths added up: symmetric, but a string can score higher against
    a longer one than against itself. *)
Definition length_scorer (s1 s2 : string) : Z :=
  Z.of_nat (String.length s1) + Z.of_nat (String.length s2).

Definition album (i n : string) (p : Z) : Album :=
  mkAlbum i n p "album" "2020-01-01" 10 i.

(** Three pages of one album each, and a client that serves them. *)
Definition page (its : list Album) (nxt : option string) : ArtistAlbums :=
  mkArtistAlbums "href" its 50 nxt 0 3.

Definition page3 : ArtistAlbums := page [album "c" "Three" 0] None.
Definition page2 : ArtistAlbums := page [album "b" "Two" 0] (Some "page3").
Definition page1 : ArtistAlbums := page [album "a" "One" 0] (Some "page2").

Definition example_next_page (p : ArtistAlbums) : ArtistAlbums :=
  match next p with
  | Some u => if String.eqb u "page2" then page2 else page3
  | None => page3
  end.

Definition example_artist : Artist := mkArtist "band" "Band" [] 50 "band".
Definition other_artist : Artist := mkArtist "guest" "Guest" [] 40 "guest".

Definition example_artist_albums (artist : string) (page_limit : Z)
  : ArtistAlbums := page1.

(** Each album holds a track by the artist and a track by someone else. *)
Definition example_albums_of (ids : list string) : list FullAlbum :=
  map (fun i => mkFullAlbum (album i i 0)
                  [mkSimplifiedTrack (i ++ "1") "Song" [example_artist];
                   mkSimplifiedTrack (i ++ "2") "Song" [other_artist]])
      ids.

(** Every track is called ["Song"]; a longer identifier is more popular. *)
Definition example_tracks_of (ids : list string) : list Album :=
  map (fun i => album i "Song" (Z.of_nat (String.length i))) ids.

Definition example_user_playlist_create (user title : string) : Playlist :=
  mkPlaylist "playlist" title.

(** The calls of a run for [example_artist] against the example client. *)
Definition example_log : list call :=
  [Call_artist_albums "band" 50;
   Call_next page1;
   Call_next page2;
   Call_albums ["a"; "b"; "c"];
   Call_tracks ["a1"; "b1"; "c1"];
   Call_spotify_scope "playlist-modify-public";
   Call_user_playlist_create "me" "Band by Popularity";
   Call_playlist_add_items "playlist" ["a1"];
   Call_print example_artist].

(** The engine applied to its own result. *)
Definition run_twice (query_processor choice_processor : string -> string)
    (scorer : string -> string -> Z) (albums : list Album) (threshold : Z)
  : result (list Album) :=
  out <- deduplicate_by_name_and_add_popularity query_processor choice_processor
    scorer
           albums threshold ;;
  deduplicate_by_name_and_add_popularity query_processor choice_processor
    scorer out threshold.

(** The [i]-th run of [c] elements of [l]. *)
Definition chunk_at {T : Type} (c : nat) (l : list T) (i : nat) : list T :=
  skipn (i * c) (firstn (i * c + c) l).

(** * Properties *)

(** ** Subsequences *)

Create HintDb engine.

#[local] Hint Constructors Subseq : engine.

Lemma Subseq_refl {A : Type} (l : list A) : Subseq l l.
Proof. induction l; auto with engine. Qed.

Lemma Subseq_nil_l {A : Type} (l : list A) : Subseq [] l.
Proof. induction l; auto with engine. Qed.

Lemma Subseq_trans {A : Type} (l1 l2 l3 : list A) :
  Subseq l1 l2 -> Subseq l2 l3 -> Subseq l1 l3.
Proof.
  intros H12 H23. revert l1 H12.
  induction H23; intros l0 H12.
  - exact H12.
  - auto with engine.
  - inversion H12; subst; auto with engine.
Qed.

Lemma Subseq_app {A : Type} (l1 l2 k1 k2 : list A) :
  Subseq l1 l2 -> Subseq k1 k2 -> Subseq (l1 ++ k1) (l2 ++ k2).
Proof.
  induction 1; intros Hk; simpl; auto with engine.
Qed.

Lemma Subseq_length {A : Type} (l1 l2 : list A) :
  Subseq l1 l2 -> (List.length l1 <= List.length l2)%nat.
Proof. induction 1; simpl; lia. Qed.

Lemma Subseq_In {A : Type} (l1 l2 : list A) (x : A) :
  Subseq l1 l2 -> In x l1 -> In x l2.
Proof.
  induction 1; simpl; intros Hin; auto.
  destruct Hin; auto.
Qed.

Lemma Subseq_length_eq {A : Type} (l1 l2 : list A) :
  Subseq l1 l2 -> List.length l1 = List.length l2 -> l1 = l2.
Proof.
  induction 1; simpl; intros Hlen.
  - reflexivity.
  - apply Subseq_length in H. lia.
  - f_equal. apply IHSubseq. lia.
Qed.

Lemma Subseq_map {A B : Type} (f : A -> B) (l1 l2 : list A) :
  Subseq l1 l2 -> Subseq (map f l1) (map f l2).
Proof. induction 1; simpl; auto with engine. Qed.

Lemma Subseq_filter {A : Type} (f : A -> bool) (l : list A) :
  Subseq (filter f l) l.
Proof.
  induction l as [|x l IH]; simpl; [constructor|].
  destruct (f x); auto with engine.
Qed.

Lemma Subseq_filter_mono {A : Type} (f : A -> bool) (l1 l2 : list A) :
  Subseq l1 l2 -> Subseq (filter f l1) (filter f l2).
Proof.
  induction 1; simpl; auto with engine.
  - destruct (f x); auto with engine.
  - destruct (f x); auto with engine.
Qed.

(** ** The stable descending sort *)

Section SortedDescFacts.
Context {A : Type} (key : A -> Z).

Lemma insert_desc_perm (x : A) (l : list A) :
  Permutation (insert_desc key x l) (x :: l).
Proof.
  induction l as [|y l IH]; simpl.
  - apply Permutation_refl.
  - destruct (key x <? key y).
    + eapply perm_trans; [apply perm_skip, IH | apply perm_swap].
    + apply Permutation_refl.
Qed.

Lemma sorted_desc_perm (l : list A) : Permutation (sorted_desc key l) l.
Proof.
  induction l as [|x l IH]; simpl.
  - apply perm_nil.
  - eapply perm_trans; [apply insert_desc_perm | apply perm_skip, IH].
Qed.

Lemma sorted_desc_length (l : list A) :
  List.length (sorted_desc key l) = List.length l.
Proof. apply Permutation_length, sorted_desc_perm. Qed.

Lemma sorted_desc_In (l : list A) (x : A) :
  In x (sorted_desc key l) <-> In x l.
Proof.
  split; apply Permutation_in;
    [| apply Permutation_sym]; apply sorted_desc_perm.
Qed.

Lemma insert_desc_sorted (x : A) (l : list A) :
  StronglySorted (desc key) l -> StronglySorted (desc key) (insert_desc key x l).
Proof.
  induction 1 as [|y l Hs IH Hall]; simpl.
  - repeat constructor.
  - destruct (key x <? key y) eqn:E.
    + apply Z.ltb_lt in E. constructor; [exact IH|].
      apply (Permutation_Forall (Permutation_sym (insert_desc_perm x l))).
      constructor; [unfold desc; lia | exact Hall].
    + apply Z.ltb_ge in E. constructor.
      * constructor; assumption.
      * constructor; [exact E|].
        eapply Forall_impl; [|exact Hall].
        unfold desc. intros; lia.
Qed.

Lemma sorted_desc_sorted (l : list A) :
  StronglySorted (desc key) (sorted_desc key l).
Proof.
  induction l; simpl; [constructor | now apply insert_desc_sorted].
Qed.

(** Stability: the elements that share a key come out in the order they
    went in. *)
Lemma insert_desc_stable (p : Z) (x : A) (l : list A) :
  filter (fun a => key a =? p) (insert_desc key x l)
  = filter (fun a => key a =? p) (x :: l).
Proof.
  induction l as [|y l IH]; [reflexivity|].
  simpl insert_desc. destruct (key x <? key y) eqn:E; [|reflexivity].
  apply Z.ltb_lt in E. simpl in *. rewrite IH.
  destruct (key x =? p) eqn:Ex, (key y =? p) eqn:Ey; try reflexivity.
  apply Z.eqb_eq in Ex, Ey. lia.
Qed.

Lemma sorted_desc_stable (p : Z) (l : list A) :
  filter (fun a => key a =? p) (sorted_desc key l)
  = filter (fun a => key a =? p) l.
Proof.
  induction l as [|x l IH]; [reflexivity|].
  simpl sorted_desc. rewrite insert_desc_stable. simpl. now rewrite IH.
Qed.

Lemma filter_perm_length (f : A -> bool) (l l' : list A) :
  Permutation l l' ->
  List.length (filter f l) = List.length (filter f l').
Proof.
  induction 1; simpl; try congruence.
  - destruct (f x); simpl; congruence.
  - destruct (f x), (f y); reflexivity.
Qed.
End SortedDescFacts.

Lemma filter_perm {A : Type} (f : A -> bool) (l l' : list A) :
  Permutation l l' -> Permutation (filter f l) (filter f l').
Proof.
  induction 1; simpl.
  - constructor.
  - destruct (f x); [apply perm_skip|]; assumption.
  - destruct (f x), (f y);
      first [apply perm_swap | apply Permutation_refl].
  - eapply perm_trans; eassumption.
Qed.

(** ** Dictionaries *)

Section DictFacts.
Context {V : Type}.
Implicit Types (d : dict V) (k : string) (v : V).

Lemma dict_set_keys_In d k v k' :
  In k' (keys (dict_set k v d)) <-> k' = k \/ In k' (keys d).
Proof.
  induction d as [|[k0 v0] d IH]; simpl.
  - intuition congruence.
  - destruct (String.eqb k0 k) eqn:E; simpl.
    + apply String.eqb_eq in E. subst. intuition congruence.
    + rewrite IH. intuition congruence.
Qed.

Lemma dict_set_fresh d k v :
  ~ In k (keys d) -> dict_set k v d = d ++ [(k, v)].
Proof.
  induction d as [|[k0 v0] d IH]; simpl; intros Hk; [reflexivity|].
  destruct (String.eqb k0 k) eqn:E.
  - apply String.eqb_eq in E. tauto.
  - f_equal. apply IH. tauto.
Qed.

Lemma dict_set_NoDup d k v :
  NoDup (keys d) -> NoDup (keys (dict_set k v d)).
Proof.
  induction d as [|[k0 v0] d IH]; simpl; intros Hnd.
  - repeat constructor. intros [].
  - inversion Hnd as [|? ? Hk0 Hd]; subst.
    destruct (String.eqb k0 k) eqn:E; simpl.
    + apply String.eqb_eq in E. subst. now constructor.
    + apply String.eqb_neq in E. constructor; [|now apply IH].
      rewrite dict_set_keys_In. intros [->|Hin]; tauto.
Qed.

Lemma dict_set_In d k v k' v' :
  In (k', v') (dict_set k v d) -> (k' = k /\ v' = v) \/ In (k', v') d.
Proof.
  induction d as [|[k0 v0] d IH]; simpl.
  - intros [H|[]]. inversion H. auto.
  - destruct (String.eqb k0 k); simpl.
    + intros [H|H]; [inversion H|]; auto.
    + intros [H|H]; [auto|]. destruct (IH H); auto.
Qed.

Lemma dict_get_In d k :
  In k (keys d) -> exists v, dict_get d k = inr v /\ In (k, v) d.
Proof.
  induction d as [|[k0 v0] d IH]; simpl; [intros []|].
  intros Hin. destruct (String.eqb k0 k) eqn:E.
  - apply String.eqb_eq in E. subst. exists v0. auto.
  - apply String.eqb_neq in E. destruct Hin as [?|Hin]; [congruence|].
    destruct (IH Hin) as (v & Hget & Hv). exists v. auto.
Qed.

Lemma dict_get_NoDup d k v :
  NoDup (keys d) -> In (k, v) d -> dict_get d k = inr v.
Proof.
  induction d as [|[k0 v0] d IH]; simpl; [intros _ []|].
  intros Hnd Hin. inversion Hnd as [|? ? Hk0 Hd]; subst.
  destruct (String.eqb k0 k) eqn:E.
  - apply String.eqb_eq in E. subst.
    destruct Hin as [H|H]; [inversion H; reflexivity|].
    exfalso. apply Hk0. apply (in_map fst) in H. exact H.
  - apply String.eqb_neq in E.
    destruct Hin as [H|H]; [inversion H; congruence|]. now apply IH.
Qed.
End DictFacts.

Section ComprehensionFacts.
Context {A V : Type} (key : A -> string) (val : A -> V).

Local Notation assign' := (assign key val).

Lemma fold_assign_keys_In (xs : list A) (d : dict V) (k : string) :
  In k (keys (fold_left assign' xs d)) <-> In k (keys d) \/ In k (map key xs).
Proof.
  revert d. induction xs as [|x xs IH]; simpl; intros d.
  - tauto.
  - rewrite IH. change (assign' d x) with (dict_set (key x) (val x) d).
    rewrite dict_set_keys_In.
    intuition congruence.
Qed.

Lemma fold_assign_NoDup (xs : list A) (d : dict V) :
  NoDup (keys d) -> NoDup (keys (fold_left assign' xs d)).
Proof.
  revert d. induction xs as [|x xs IH]; simpl; intros d Hd; [exact Hd|].
  apply IH. now apply dict_set_NoDup.
Qed.

Lemma fold_assign_In (xs : list A) (d : dict V) (k : string) (v : V) :
  In (k, v) (fold_left assign' xs d) ->
  In (k, v) d \/
  exists j x, nth_error xs j = Some x /\ key x = k /\ val x = v.
Proof.
  revert d. induction xs as [|x xs IH]; simpl; intros d Hin; [auto|].
  destruct (IH _ Hin) as [Hd|(j & y & Hj & Hk & Hv)].
  - destruct (dict_set_In _ _ _ _ _ Hd) as [[-> ->]|Hd']; [|auto].
    right. exists 0%nat, x. auto.
  - right. exists (S j), y. auto.
Qed.

Lemma fold_assign_fresh (xs : list A) (d : dict V) :
  NoDup (keys d ++ map key xs) ->
  fold_left assign' xs d = d ++ map (fun x => (key x, val x)) xs.
Proof.
  revert d. induction xs as [|x xs IH]; simpl; intros d Hnd.
  - now rewrite app_nil_r.
  - change (assign' d x) with (dict_set (key x) (val x) d).
    rewrite dict_set_fresh.
    + rewrite IH.
      * now rewrite <- app_assoc.
      * unfold keys in *. rewrite map_app. simpl.
        rewrite <- app_assoc. exact Hnd.
    + apply NoDup_remove_2 in Hnd. intros Hk. apply Hnd.
      apply in_or_app. auto.
Qed.

Lemma dict_comprehension_keys_In (xs : list A) (k : string) :
  In k (keys (dict_comprehension key val xs)) <-> In k (map key xs).
Proof.
  unfold dict_comprehension.
  rewrite fold_assign_keys_In. simpl. tauto.
Qed.

Lemma dict_comprehension_NoDup (xs : list A) :
  NoDup (keys (dict_comprehension key val xs)).
Proof. apply fold_assign_NoDup. constructor. Qed.

Lemma dict_comprehension_In (xs : list A) (k : string) (v : V) :
  In (k, v) (dict_comprehension key val xs) ->
  exists j x, nth_error xs j = Some x /\ key x = k /\ val x = v.
Proof.
  intros Hin. apply fold_assign_In in Hin. destruct Hin as [[]|H]; exact H.
Qed.

Lemma dict_comprehension_distinct (xs : list A) :
  NoDup (map key xs) ->
  dict_comprehension key val xs = map (fun x => (key x, val x)) xs.
Proof.
  intros Hnd. unfold dict_comprehension.
  now rewrite fold_assign_fresh.
Qed.
End ComprehensionFacts.

(** ** The matcher and the loop *)

Section EngineFacts.
Variable query_processor : string -> string.
Variable choice_processor : string -> string.
Variable scorer : string -> string -> Z.
Variable threshold : Z.

Local Notation survives' := (survives query_processor choice_processor
  scorer threshold).
Local Notation to_match' := (to_match query_processor choice_processor scorer).
Local Notation near_duplicates' := (near_duplicates query_processor choice_processor
  scorer threshold).
Local Notation filtered_album_matches' :=
  (filtered_album_matches query_processor choice_processor scorer threshold).
Local Notation keeps' := (keeps query_processor choice_processor
  scorer threshold).
Local Notation loop_body' := (loop_body query_processor choice_processor
  scorer threshold).
Local Notation run_loop' := (run_loop query_processor choice_processor
  scorer threshold).

Lemma filter_matches_unordered (d : dict string) (q : string) :
  filter (fun m => threshold <? score m)
    (map (fun t : string * Z * string =>
            let '(album_name, score, album_id) := t in
            mkAlbumMatch album_name score album_id)
         (extractWithoutOrder query_processor choice_processor scorer q d))
  = map (to_match' q) (filter (survives' q) d).
Proof.
  unfold extractWithoutOrder.
  induction d as [|[k c] d IH]; [reflexivity|].
  cbn [flat_map filter]. unfold survives at 1, match_score.
  cbn [snd]. destruct (score_cutoff <=? _) eqn:Ec; cbn [app map andb].
  - cbn [filter score].
    destruct (threshold <? _) eqn:Et; cbn [map]; rewrite IH; reflexivity.
  - exact IH.
Qed.

Lemma filtered_album_matches_perm (d : dict string) (item : Album) :
  Permutation (filtered_album_matches' d item)
              (map (to_match' (name item)) (near_duplicates' d item)).
Proof.
  unfold filtered_album_matches, album_matches, extract,
    near_duplicates.
  rewrite <- filter_matches_unordered.
  apply filter_perm, Permutation_map, sorted_desc_perm.
Qed.

Lemma filtered_album_matches_length (d : dict string) (item : Album) :
  List.length (filtered_album_matches' d item)
  = List.length (near_duplicates' d item).
Proof.
  rewrite (Permutation_length (filtered_album_matches_perm d item)).
  apply length_map.
Qed.

Lemma filtered_album_matches_In (d : dict string) (item : Album)
    (m : AlbumMatch) :
  In m (filtered_album_matches' d item)
  <-> exists kc, In kc (near_duplicates' d item) /\ m = to_match' (name item) kc.
Proof.
  split.
  - intros Hin.
    apply (Permutation_in _ (filtered_album_matches_perm d item)) in Hin.
    apply in_map_iff in Hin. destruct Hin as (kc & <- & Hkc). eauto.
  - intros (kc & Hkc & ->).
    apply (Permutation_in _
             (Permutation_sym (filtered_album_matches_perm d item))).
    now apply in_map.
Qed.

Lemma mem_true_iff (k : string) (l : list string) :
  mem k l = true <-> In k l.
Proof.
  unfold mem. rewrite existsb_exists. split.
  - intros (x & Hx & E). apply String.eqb_eq in E. now subst.
  - intros Hin. exists k. split; [exact Hin | apply String.eqb_refl].
Qed.

Lemma is_empty_map_filter {A B : Type} (f : A -> B) (p : A -> bool)
    (l : list A) :
  is_empty (map f (filter p l)) = true <-> forall x, In x l -> p x = false.
Proof.
  induction l as [|x l IH]; simpl.
  - split; [intros _ ? [] | reflexivity].
  - destruct (p x) eqn:E; simpl.
    + split; [discriminate|]. intros H. specialize (H x (or_introl eq_refl)).
      congruence.
    + rewrite IH. split.
      * intros H y [<-|Hy]; auto.
      * intros H y Hy. apply H. auto.
Qed.

(** The condition of the [if], read on the names dictionary. *)
Lemma keeps_true_iff (d : dict string) (kept : list string) (item : Album) :
  keeps' d kept item = true
  <-> List.length (near_duplicates' d item) = 1%nat
      \/ forall kc, In kc (near_duplicates' d item) -> ~ In (fst kc) kept.
Proof.
  unfold keeps. rewrite orb_true_iff, Nat.eqb_eq.
  rewrite filtered_album_matches_length, is_empty_map_filter.
  apply or_iff_compat_l. split.
  - intros H kc Hkc Hin.
    assert (Hm : In (to_match' (name item) kc) (filtered_album_matches' d item))
      by (apply filtered_album_matches_In; eauto).
    apply H in Hm. apply mem_true_iff in Hin. simpl in Hm. congruence.
  - intros H m Hm. apply filtered_album_matches_In in Hm.
    destruct Hm as (kc & Hkc & ->). simpl.
    destruct (mem (fst kc) kept) eqn:E; [|reflexivity].
    apply mem_true_iff in E. now apply H in E.
Qed.

Lemma run_loop_app (d : dict string) (l1 l2 : list Album)
    (start : list string) :
  run_loop' d (l1 ++ l2) start = run_loop' d l2 (run_loop' d l1 start).
Proof. apply fold_left_app. Qed.

Lemma run_loop_snoc (d : dict string) (l : list Album) (item : Album)
    (start : list string) :
  run_loop' d (l ++ [item]) start = loop_body' d (run_loop' d l start) item.
Proof. now rewrite run_loop_app. Qed.

(** The loop only appends, and what it appends are identifiers of the items
    it walks, in their order. *)
Lemma run_loop_extends (d : dict string) (items : list Album)
    (start : list string) :
  exists extra,
    run_loop' d items start = start ++ extra /\ Subseq extra (map id items).
Proof.
  revert start. induction items as [|item items IH]; intros start.
  - exists []. split; [now rewrite app_nil_r | constructor].
  - cbn [run_loop fold_left].
    destruct (IH (loop_body' d start item)) as (extra & Heq & Hsub).
    unfold run_loop in Heq. rewrite Heq.
    unfold loop_body. destruct (keeps' d start item).
    + exists (id item :: extra). rewrite <- app_assoc. split; [reflexivity|].
      simpl. now constructor.
    + exists extra. split; [reflexivity|]. simpl. now constructor.
Qed.

(** When every item passes the condition whatever has been kept, the loop
    keeps' every identifier. *)
Lemma run_loop_keeps_all (d : dict string) (items : list Album)
    (start : list string) :
  (forall item kept, In item items -> keeps' d kept item = true) ->
  run_loop' d items start = start ++ map id items.
Proof.
  revert start. induction items as [|item items IH]; intros start Hall.
  - simpl. now rewrite app_nil_r.
  - cbn [run_loop fold_left]. unfold loop_body.
    rewrite Hall by (left; reflexivity).
    unfold run_loop in IH. rewrite IH.
    + now rewrite <- app_assoc.
    + intros. apply Hall. now right.
Qed.
End EngineFacts.

(** ** The shape of the result *)

Lemma mapM_dict_get {V : Type} (d : dict V) (ks : list string) :
  (forall k, In k ks -> In k (keys d)) ->
  exists found,
    mapM (dict_get d) ks = inr found
    /\ Forall2 (fun k v => In (k, v) d) ks found.
Proof.
  induction ks as [|k ks IH]; intros Hks.
  - exists []. split; [reflexivity | constructor].
  - destruct (dict_get_In d k) as (v & Hget & Hv); [apply Hks; now left|].
    destruct IH as (found & Hfound & Hall); [intros; apply Hks; now right|].
    exists (v :: found). split.
    + simpl. rewrite Hget. simpl. rewrite Hfound. reflexivity.
    + now constructor.
Qed.

Lemma Forall2_map_l_eq {A B : Type} (f : B -> A) (ks : list A) (vs : list B) :
  Forall2 (fun k v => f v = k) ks vs -> map f vs = ks.
Proof. induction 1; simpl; congruence. Qed.

Lemma Forall2_In_r {A B : Type} (R : A -> B -> Prop) (ks : list A)
    (vs : list B) (v : B) :
  Forall2 R ks vs -> In v vs -> exists k, In k ks /\ R k v.
Proof.
  induction 1; simpl; [intros []|].
  intros [<-|Hin]; [eauto|].
  destruct (IHForall2 Hin) as (k & Hk & HR). eauto.
Qed.

(** Records found under identifiers that occur in order in a list of
    distinct identifiers occur in the same order in the list of records. *)
Lemma found_Subseq (albums : list Album) :
  NoDup (map id albums) ->
  forall ks found,
    Subseq ks (map id albums) ->
    Forall2 (fun k r => id r = k /\ In r albums) ks found ->
    Subseq found albums.
Proof.
  induction albums as [|a l IH]; intros Hnd ks found Hsub Hall.
  - inversion Hsub; subst. inversion Hall. constructor.
  - simpl in Hnd. inversion Hnd as [|? ? Ha Hl]; subst.
    assert (Hin_l : forall ks' found',
               (forall k, In k ks' -> In k (map id l)) ->
               Forall2 (fun k r => id r = k /\ In r (a :: l)) ks' found' ->
               Forall2 (fun k r => id r = k /\ In r l) ks' found').
    { intros ks' found' Hs HF.
      induction HF as [|k r ks' found' [Hk Hr] HF IHF]; constructor.
      - split; [exact Hk|]. destruct Hr as [<-|Hr]; [|exact Hr].
        exfalso. apply Ha. rewrite Hk. apply Hs. now left.
      - apply IHF. intros k' Hk'. apply Hs. now right. }
    simpl in Hsub. inversion Hsub as [|x l1 l2 Hs|x l1 l2 Hs]; subst.
    + apply Subseq_skip. apply (IH Hl ks found Hs).
      apply Hin_l; [|exact Hall]. intros k. now apply Subseq_In.
    + inversion Hall as [|k r ks' found' [Hk Hr] HF]; subst.
      destruct Hr as [<-|Hr].
      * apply Subseq_keep. apply (IH Hl l1 found' Hs).
        apply Hin_l; [|exact HF]. intros k. now apply Subseq_In.
      * exfalso. apply Ha. rewrite <- Hk. now apply in_map.
Qed.

Section ResultShape.
Variable query_processor : string -> string.
Variable choice_processor : string -> string.
Variable scorer : string -> string -> Z.
Variable threshold : Z.

Local Notation engine' :=
  (deduplicate_by_name_and_add_popularity query_processor choice_processor
    scorer).
Local Notation extractor' := (extractor_album_ids query_processor choice_processor
  scorer).

Lemma extractor_Subseq (albums : list Album) :
  Subseq (extractor' albums threshold) (map id albums).
Proof.
  unfold extractor_album_ids.
  destruct (run_loop_extends query_processor choice_processor scorer threshold
              (dict_comprehension id name albums) albums [])
    as (extra & -> & Hsub).
  exact Hsub.
Qed.

(** Either every identifier was kept and the input comes back, or the
    result is the sorted list of the records found under the kept
    identifiers. *)
Lemma engine_cases (albums : list Album) :
  let kept := extractor' albums threshold in
  (List.length kept = List.length albums
   /\ engine' albums threshold = inr albums)
  \/ (List.length kept <> List.length albums
      /\ exists found,
           engine' albums threshold = inr (sorted_desc popularity found)
           /\ map id found = kept
           /\ Forall2 (fun k r => id r = k /\ In r albums) kept found).
Proof.
  intros kept. unfold deduplicate_by_name_and_add_popularity.
  fold kept. destruct (Nat.eqb_spec (List.length kept) (List.length albums))
    as [E|E]; simpl.
  - left. auto.
  - right. split; [exact E|].
    destruct (mapM_dict_get
                (dict_comprehension id (fun album : Album => album) albums)
                kept) as (found & Hfound & Hall).
    { intros k Hk. apply dict_comprehension_keys_In.
      eapply Subseq_In; [apply extractor_Subseq | exact Hk]. }
    assert (Hall' : Forall2 (fun k r => id r = k /\ In r albums) kept found).
    { eapply Forall2_impl; [|exact Hall]. simpl. intros k r Hkr.
      apply dict_comprehension_In in Hkr.
      destruct Hkr as (j & x & Hj & Hk & Hx). subst.
      split; [reflexivity|]. eapply nth_error_In; eassumption. }
    exists found. rewrite Hfound. simpl. repeat split; [|exact Hall'].
    apply Forall2_map_l_eq. eapply Forall2_impl; [|exact Hall'].
    simpl. tauto.
Qed.

(** The first item is kept whatever the matcher says. *)
Lemma extractor_first (a : Album) (l : list Album) :
  exists rest, extractor' (a :: l) threshold = id a :: rest.
Proof.
  unfold extractor_album_ids. cbn [run_loop fold_left].
  set (d := dict_comprehension id name (a :: l)).
  assert (Hk : keeps query_processor choice_processor
    scorer threshold d [] a = true).
  { apply keeps_true_iff. right. intros kc _ []. }
  unfold loop_body at 2. rewrite Hk. simpl app.
  destruct (run_loop_extends query_processor choice_processor
    scorer threshold d l [id a])
    as (extra & Heq & _).
  unfold run_loop in Heq. rewrite Heq. now exists extra.
Qed.
End ResultShape.

(** ** When nothing is a duplicate *)

Lemma NoDup_map_fst_filter {A B : Type} (f : A * B -> bool) (l : list (A * B)) :
  NoDup (map fst l) -> NoDup (map fst (filter f l)).
Proof.
  induction l as [|x l IH]; simpl; intros Hnd; [constructor|].
  inversion Hnd as [|? ? Hx Hl]; subst.
  destruct (f x); simpl; [|now apply IH].
  constructor; [|now apply IH].
  intros Hin. apply Hx. apply in_map_iff in Hin.
  destruct Hin as (y & Hy & Hin). apply filter_In in Hin.
  rewrite <- Hy. apply in_map. tauto.
Qed.

Lemma NoDup_constant_length {A : Type} (l : list A) (c : A) :
  NoDup l -> (forall x, In x l -> x = c) -> (List.length l <= 1)%nat.
Proof.
  intros Hnd Hc. destruct l as [|x [|y l]]; simpl; try lia.
  exfalso. inversion Hnd as [|? ? Hx _]; subst. apply Hx.
  rewrite (Hc x), (Hc y); simpl; auto.
Qed.

Section NoDuplicates.
Variable query_processor : string -> string.
Variable choice_processor : string -> string.
Variable scorer : string -> string -> Z.
Variable threshold : Z.

Local Notation engine' :=
  (deduplicate_by_name_and_add_popularity query_processor choice_processor
    scorer).
Local Notation survives' := (survives query_processor choice_processor
  scorer threshold).
Local Notation near_duplicates' :=
  (near_duplicates query_processor choice_processor scorer threshold).

(** If no item of the names dictionary other than a record's own survives
    for that record, the engine hands the input back. *)
Lemma engine_identity_pairwise (albums : list Album) :
  (forall i j a b,
      i <> j ->
      nth_error albums i = Some a ->
      nth_error albums j = Some b ->
    survives' (name a) (id b, name b) = false) ->
  extractor_album_ids query_processor choice_processor
    scorer albums threshold = map id albums
  /\ engine' albums threshold = inr albums.
Proof.
  intros Hpair.
  set (d := dict_comprehension id name albums).
  assert (Hone : forall item,
             In item albums ->
             (List.length (near_duplicates' d item) <= 1)%nat).
  { intros item Hitem. apply In_nth_error in Hitem.
    destruct Hitem as (i & Hi).
    rewrite <- (length_map fst).
    apply (NoDup_constant_length _ (id item)).
    - apply NoDup_map_fst_filter, dict_comprehension_NoDup.
    - intros k Hk. apply in_map_iff in Hk.
      destruct Hk as ([k' n] & <- & Hkc). apply filter_In in Hkc.
      destruct Hkc as [Hd Hs]. apply dict_comprehension_In in Hd.
      destruct Hd as (j & x & Hj & Hk' & Hn). subst k' n. simpl.
      destruct (Nat.eq_dec i j) as [->|Hij]; [congruence|].
      rewrite (Hpair i j item x Hij Hi Hj) in Hs. discriminate. }
  assert (Hkeeps : forall item kept,
             In item albums ->
             keeps query_processor choice_processor
               scorer threshold d kept item = true).
  { intros item kept Hitem. apply keeps_true_iff.
    specialize (Hone item Hitem).
    destruct (near_duplicates' d item) as [|kc [|kc' l]]; simpl in *.
    - right. intros ? [].
    - now left.
    - lia. }
  assert (Hall : extractor_album_ids query_processor choice_processor
    scorer albums threshold
                 = map id albums).
  { unfold extractor_album_ids. fold d.
    rewrite run_loop_keeps_all by exact Hkeeps. reflexivity. }
  split; [exact Hall|].
  destruct (engine_cases query_processor choice_processor
    scorer threshold albums)
    as [[_ H]|[Hlen _]]; [exact H|].
  exfalso. apply Hlen. rewrite Hall. apply length_map.
Qed.
End NoDuplicates.

(** ** The claims about the engine *)

(** C8. On the empty list the engine returns the empty list and raises
    nothing, for every threshold and every scorer. *)
Theorem dedup_empty_input :
  forall (query_processor choice_processor : string -> string)
         (scorer : string -> string -> Z)
         (threshold : Z),
    deduplicate_by_name_and_add_popularity query_processor choice_processor
      scorer [] threshold
    = inr [].
Proof. intros. reflexivity. Qed.

(** C1. For every input, threshold and scorer the engine returns a list;
    each record in it is a record of the input, so its identifier occurs
    among the input identifiers; and the list is no longer than the input. *)
Theorem dedup_output_subset_of_input :
  forall (query_processor choice_processor : string -> string)
         (scorer : string -> string -> Z)
         (albums : list Album) (threshold : Z),
  exists out,
    deduplicate_by_name_and_add_popularity query_processor choice_processor
      scorer albums threshold
    = inr out
    /\ (forall r, In r out -> In (id r) (map id albums) /\ In r albums)
    /\ (List.length out <= List.length albums)%nat.
Proof.
  intros query_processor choice_processor scorer albums threshold.
  destruct (engine_cases query_processor choice_processor
    scorer threshold albums)
    as [[_ H]|(_ & found & H & Hids & Hall)].
  - exists albums. split; [exact H|]. split; [|lia].
    intros r Hr. split; [now apply in_map | exact Hr].
  - exists (sorted_desc popularity found). split; [exact H|]. split.
    + intros r Hr. apply sorted_desc_In in Hr.
      destruct (Forall2_In_r _ _ _ _ Hall Hr) as (k & _ & _ & Hin).
      split; [now apply in_map | exact Hin].
    + rewrite sorted_desc_length, <- (length_map id found), Hids.
      rewrite <- (length_map id albums).
      apply Subseq_length, extractor_Subseq.
Qed.

(** Four records, two of them under the same name: what comes back are
    three records of the input. *)
Lemma dedup_output_subset_of_input_witness :
  let albums := [album "a" "One" 10; album "b" "Two" 30;
                 album "c" "Three" 30; album "d" "One" 50] in
  exists out,
    deduplicate_by_name_and_add_popularity no_process no_process exact_scorer albums 99
    = inr out
    /\ In (album "a" "One" 10) out
    /\ In "a" (map id albums)
    /\ (List.length out <= 4)%nat.
Proof.
  intros albums.
  destruct (dedup_output_subset_of_input no_process no_process exact_scorer albums 99)
    as (out & Hout & Hin & Hlen).
  exists out. split; [exact Hout|].
  assert (Ha : In (album "a" "One" 10) out).
  { vm_compute in Hout. injection Hout as <-. simpl. auto. }
  split; [exact Ha|]. split; [|exact Hlen].
  exact (proj1 (Hin _ Ha)).
Defined.

(** C10. On a non-empty input the first record is always kept: its
    identifier heads the list of kept identifiers, the result is not empty,
    and the identifier occurs in the result. *)
Theorem dedup_first_record_kept :
  forall (query_processor choice_processor : string -> string)
         (scorer : string -> string -> Z)
         (first : Album) (others : list Album) (threshold : Z),
  exists out rest,
    deduplicate_by_name_and_add_popularity query_processor choice_processor
      scorer
      (first :: others) threshold = inr out
    /\ extractor_album_ids query_processor choice_processor
      scorer (first :: others) threshold
       = id first :: rest
    /\ out <> []
    /\ In (id first) (map id out).
Proof.
  intros query_processor choice_processor scorer first others threshold.
  destruct (extractor_first query_processor choice_processor
    scorer threshold first others)
    as (rest & Hrest).
  assert (Hne : forall (l : list Album), In (id first) (map id l) -> l <> []).
  { intros l Hin ->. exact Hin. }
  destruct (engine_cases query_processor choice_processor
    scorer threshold (first :: others))
    as [[_ H]|(_ & found & H & Hids & _)].
  - exists (first :: others), rest. repeat split; auto.
    + discriminate.
    + now left.
  - assert (Hin : In (id first) (map id (sorted_desc popularity found))).
    { rewrite Hrest in Hids.
      assert (Hf : In (id first) (map id found))
        by (rewrite Hids; now left).
      apply in_map_iff in Hf. destruct Hf as (r & Hr & Hf).
      rewrite <- Hr. apply in_map. now apply sorted_desc_In. }
    exists (sorted_desc popularity found), rest. repeat split; auto.
Qed.

(** C3. If the name of every record scores at most the threshold against
    the name of every other record of the input, every record is kept and
    the engine returns the input list itself, in the order it was given. *)
Theorem dedup_identity_without_duplicates :
  forall (query_processor choice_processor : string -> string)
         (scorer : string -> string -> Z)
         (albums : list Album) (threshold : Z),
    (forall i j a b,
        i <> j ->
        nth_error albums i = Some a ->
        nth_error albums j = Some b ->
        match_score query_processor choice_processor
          scorer (name a) (name b) <= threshold) ->
    extractor_album_ids query_processor choice_processor
      scorer albums threshold = map id albums
    /\ deduplicate_by_name_and_add_popularity query_processor choice_processor
      scorer albums threshold
       = inr albums.
Proof.
  intros query_processor choice_processor scorer albums threshold Hpair.
  apply engine_identity_pairwise.
  intros i j a b Hij Ha Hb. specialize (Hpair i j a b Hij Ha Hb).
  unfold survives. simpl. apply andb_false_iff. right.
  apply Z.ltb_ge. exact Hpair.
Qed.

Ltac split_positions i :=
  destruct i as [|[|[|[|i]]]]; cbn [nth_error] in *;
  try discriminate; try (destruct i; discriminate).

(** An input the identity property applies to: three names, none equal to
    another. *)
Lemma dedup_identity_without_duplicates_witness :
  deduplicate_by_name_and_add_popularity no_process no_process exact_scorer
    [album "a" "One" 10; album "b" "Two" 30; album "c" "Three" 20] 99
  = inr [album "a" "One" 10; album "b" "Two" 30; album "c" "Three" 20].
Proof.
  apply (dedup_identity_without_duplicates no_process no_process exact_scorer
           [album "a" "One" 10; album "b" "Two" 30; album "c" "Three" 20]).
  intros i j a b Hij Ha Hb.
  split_positions i; split_positions j;
    try (exfalso; apply Hij; reflexivity);
    injection Ha as <-; injection Hb as <-; vm_compute; discriminate.
Defined.

(** C4. When the result is not as long as the input, it is in
    non-increasing order of popularity, and the sort is stable: for each
    popularity, the identifiers of the records of that popularity come in the
    order they have in the input, and when the input identifiers are distinct
    so do the records themselves. *)
Theorem dedup_sorted_stable_when_shorter :
  forall (query_processor choice_processor : string -> string)
         (scorer : string -> string -> Z)
         (albums : list Album) (threshold : Z),
  exists out,
    deduplicate_by_name_and_add_popularity query_processor choice_processor
      scorer albums threshold
    = inr out
    /\ (List.length out <> List.length albums ->
        StronglySorted (desc popularity) out
        /\ (forall p,
               Subseq (map id (filter (fun r => popularity r =? p) out))
                      (map id albums))
        /\ (NoDup (map id albums) ->
            forall p,
              Subseq (filter (fun r => popularity r =? p) out) albums)).
Proof.
  intros query_processor choice_processor scorer albums threshold.
  destruct (engine_cases query_processor choice_processor
    scorer threshold albums)
    as [[_ H]|(_ & found & H & Hids & Hall)].
  - exists albums. split; [exact H|]. intros Hlen. now elim Hlen.
  - exists (sorted_desc popularity found). split; [exact H|]. intros _.
    split; [apply sorted_desc_sorted|]. split.
    + intros p. rewrite (sorted_desc_stable popularity p found).
      eapply Subseq_trans; [apply Subseq_map, Subseq_filter|].
      rewrite Hids. apply extractor_Subseq.
    + intros Hnd p. rewrite (sorted_desc_stable popularity p found).
      eapply Subseq_trans; [apply Subseq_filter|].
      eapply found_Subseq; [exact Hnd | apply extractor_Subseq | exact Hall].
Qed.

(** An input with a dropped duplicate and a tie: ["One"] comes back once,
    and the two records of popularity 30 keep their order. *)
Lemma dedup_sorted_stable_when_shorter_witness :
  let albums := [album "a" "One" 10; album "b" "Two" 30;
                 album "c" "Three" 30; album "d" "One" 50] in
  exists out,
    deduplicate_by_name_and_add_popularity no_process no_process exact_scorer albums 99
    = inr out
    /\ out = [album "b" "Two" 30; album "c" "Three" 30; album "a" "One" 10]
    /\ StronglySorted (desc popularity) out
    /\ Subseq (filter (fun r => popularity r =? 30) out) albums.
Proof.
  intros albums.
  destruct (dedup_sorted_stable_when_shorter no_process no_process exact_scorer albums 99)
    as (out & Hout & Hprop).
  exists out. split; [exact Hout|].
  assert (E : out = [album "b" "Two" 30; album "c" "Three" 30;
                     album "a" "One" 10]).
  { vm_compute in Hout. injection Hout as <-. reflexivity. }
  split; [exact E|].
  destruct Hprop as (Hsorted & _ & Hstable).
  - rewrite E. simpl. discriminate.
  - split; [exact Hsorted|]. apply Hstable.
    repeat constructor; simpl; intuition discriminate.
Defined.

(** C9, as stated: a record matched against the names dictionary of the
    list that holds only that record has exactly one match above the
    threshold, and is kept.  It fails when the self-match does not exceed the
    threshold: at threshold 100 a scorer that never goes above 100 leaves no
    match, and the record is kept all the same. *)
Lemma self_match_survives_counterexample :
  let item := album "a" "One" 10 in
  let d := dict_comprehension id name [item] in
  ~ (List.length (filtered_album_matches no_process no_process exact_scorer 100 d item)
     = 1%nat
     /\ keeps no_process no_process exact_scorer 100 d [] item = true)
  /\ filtered_album_matches no_process no_process exact_scorer 100 d item = []
  /\ keeps no_process no_process exact_scorer 100 d [] item = true.
Proof.
  vm_compute. split; [|split; reflexivity].
  intros [H _]. discriminate H.
Qed.

(** C9, amended. A record matched against the names dictionary of the list
    that holds only that record is always kept, and the engine returns that
    list.  The matches above the threshold are the self-match alone when its
    score is at least the cutoff of the matcher and above the threshold, and
    none otherwise. *)
Theorem self_match_single_record :
  forall (query_processor choice_processor : string -> string)
         (scorer : string -> string -> Z)
         (threshold : Z) (item : Album),
    let d := dict_comprehension id name [item] in
    let self := (id item, name item) in
    filtered_album_matches query_processor choice_processor
      scorer threshold d item
    = (if survives query_processor choice_processor
      scorer threshold (name item) self
       then [to_match query_processor choice_processor scorer (name item) self]
       else [])
    /\ keeps query_processor choice_processor scorer threshold d [] item = true
    /\ extractor_album_ids query_processor choice_processor
      scorer [item] threshold = [id item]
    /\ deduplicate_by_name_and_add_popularity query_processor choice_processor
      scorer [item] threshold
       = inr [item].
Proof.
  intros query_processor choice_processor scorer threshold item d self.
  assert (Hk : keeps query_processor choice_processor
    scorer threshold d [] item = true).
  { apply keeps_true_iff. right. intros kc _ []. }
  assert (He : extractor_album_ids query_processor choice_processor
    scorer [item] threshold
               = [id item]).
  { unfold extractor_album_ids. cbn [run_loop fold_left]. fold d.
    unfold loop_body. rewrite Hk. reflexivity. }
  split; [|split; [exact Hk|split; [exact He|]]].
  - unfold filtered_album_matches, album_matches, extract,
      extractWithoutOrder, survives, to_match, match_score, d, self.
    cbn [dict_comprehension fold_left assign dict_set flat_map app snd fst].
    destruct (score_cutoff <=? _) eqn:Ec; simpl; [|reflexivity].
    destruct (threshold <? _); reflexivity.
  - unfold deduplicate_by_name_and_add_popularity. rewrite He. reflexivity.
Qed.

(** ** The rule of the loop *)

Lemma length_one_unique {A : Type} (l : list A) (a b : A) :
  List.length l = 1%nat -> In a l -> In b l -> a = b.
Proof.
  destruct l as [|x [|y l]]; simpl; try discriminate.
  intros _ [<-|[]] [<-|[]]. reflexivity.
Qed.

Section KeepRule.
Variable query_processor : string -> string.
Variable choice_processor : string -> string.
Variable scorer : string -> string -> Z.
Variable threshold : Z.

(** The condition of the [if], read on the matches above the threshold. *)
Lemma keeps_rule (d : dict string) (kept : list string) (item : Album) :
  keeps query_processor choice_processor scorer threshold d kept item = true
  <-> List.length (filtered_album_matches query_processor choice_processor
    scorer threshold d item)
      = 1%nat
      \/ (forall m,
             In m (filtered_album_matches query_processor choice_processor
               scorer threshold d item)
             -> ~ In (album_id m) kept).
Proof.
  unfold keeps. rewrite orb_true_iff, Nat.eqb_eq, is_empty_map_filter.
  apply or_iff_compat_l. split.
  - intros H m Hm Hin. apply mem_true_iff in Hin.
    rewrite (H m Hm) in Hin. discriminate.
  - intros H m Hm. destruct (mem (album_id m) kept) eqn:E; [|reflexivity].
    apply mem_true_iff in E. now apply H in E.
Qed.
End KeepRule.

(** C2, as stated: the keep rule, and as its consequence that a later
    near-duplicate of a kept record is dropped.  The consequence fails when
    the match with the kept record is the only one above the threshold: here
    ["a"] scores 4 against ["abc"] and 2 against itself, so at threshold 3 its
    one surviving match is the kept ["x"], the first disjunct of the
    condition holds, and ["y"] is kept. *)
Lemma dedup_first_seen_wins_counterexample :
  let x := album "x" "abc" 10 in
  let y := album "y" "a" 20 in
  let d := dict_comprehension id name [x; y] in
  let kept := run_loop no_process no_process length_scorer 3 d [x] [] in
  kept = ["x"]
  /\ 3 < match_score no_process no_process length_scorer (name y) (name x)
  /\ filtered_album_matches no_process no_process length_scorer 3 d y
     = [mkAlbumMatch "abc" 4 "x"]
  /\ run_loop no_process no_process length_scorer 3 d [x; y] [] = ["x"; "y"]
  /\ run_loop no_process no_process length_scorer 3 d [x; y] [] <> kept
  /\ deduplicate_by_name_and_add_popularity no_process no_process
       length_scorer [x; y] 3 = inr [x; y].
Proof.
  vm_compute. repeat split; try reflexivity; discriminate.
Qed.

(** C2, amended. Walking the input in order, the loop appends the
    identifier of a record exactly when one match alone is above the
    threshold or no match above the threshold carries an identifier kept so
    far, and leaves the kept list alone otherwise; what is kept stays kept to
    the end.  So a record none of whose matches above the threshold belongs
    to an earlier record is kept; and a later record one of whose matches
    above the threshold carries an identifier kept earlier is dropped exactly
    when that match is not the only one above the threshold, as when its own
    self-match is above the threshold too. *)
Theorem dedup_keep_rule_first_seen_wins :
  forall (query_processor choice_processor : string -> string)
         (scorer : string -> string -> Z)
         (albums : list Album) (threshold : Z)
         (pre : list Album) (item : Album) (post : list Album),
    albums = pre ++ item :: post ->
    let d := dict_comprehension id name albums in
    let kept := run_loop query_processor choice_processor
      scorer threshold d pre [] in
    let after := run_loop query_processor choice_processor
      scorer threshold d (pre ++ [item]) [] in
    let surviving := filtered_album_matches query_processor choice_processor
      scorer threshold d item in
    let rule := List.length surviving = 1%nat
                \/ (forall m, In m surviving -> ~ In (album_id m) kept) in
    (rule -> after = kept ++ [id item])
    /\ (~ rule -> after = kept)
    /\ (exists later,
          extractor_album_ids query_processor choice_processor
            scorer albums threshold
          = after ++ later
          /\ Subseq later (map id post))
    /\ ((forall m, In m surviving -> ~ In (album_id m) (map id pre)) ->
        after = kept ++ [id item])
    /\ (forall earlier,
          In earlier pre ->
          In (id earlier) kept ->
          id earlier <> id item ->
          (exists m, In m surviving /\ album_id m = id earlier) ->
          (exists m, In m surviving /\ album_id m = id item) ->
          after = kept)
    /\ (forall m,
          In m surviving <->
          exists kc,
            In kc d
            /\ survives query_processor choice_processor scorer threshold
                 (name item) kc = true
            /\ m = to_match query_processor choice_processor scorer
                     (name item) kc)
    /\ ((exists m, In m surviving /\ In (album_id m) kept) ->
        (after = kept <-> List.length surviving <> 1%nat)).
Proof.
  intros query_processor choice_processor
    scorer albums threshold pre item post Halbums
         d kept after surviving rule.
  assert (Hafter : after = loop_body query_processor choice_processor
    scorer threshold d kept item)
    by apply run_loop_snoc.
  assert (Hyes : rule -> after = kept ++ [id item]).
  { intros Hr. apply keeps_rule in Hr. rewrite Hafter. unfold loop_body.
    now rewrite Hr. }
  assert (Hno : ~ rule -> after = kept).
  { intros Hr. rewrite Hafter. unfold loop_body.
    destruct (keeps query_processor choice_processor
      scorer threshold d kept item) eqn:E;
      [|reflexivity].
    apply keeps_rule in E. contradiction. }
  split; [exact Hyes|]. split; [exact Hno|].
  split; [|split; [|split; [|split]]].
  - destruct (run_loop_extends query_processor choice_processor
    scorer threshold d post after)
      as (later & Heq & Hsub).
    exists later. split; [|exact Hsub].
    rewrite <- Heq. unfold extractor_album_ids, after. fold d.
    rewrite <- run_loop_app, <- app_assoc, Halbums. reflexivity.
  - intros Hfirst. apply Hyes. right. intros m Hm Hin.
    apply (Hfirst m Hm).
    destruct (run_loop_extends query_processor choice_processor
      scorer threshold d pre [])
      as (extra & Heq & Hsub).
    fold kept in Heq. simpl in Heq. subst extra.
    eapply Subseq_In; eassumption.
  - intros earlier _ Hkept Hne (m1 & Hm1 & Hid1) (m2 & Hm2 & Hid2).
    apply Hno. intros [Hone|Hnone].
    + assert (m1 = m2) by (eapply length_one_unique; eassumption).
      subst m2. congruence.
    + apply (Hnone m1 Hm1). now rewrite Hid1.
  - intros m. unfold surviving. rewrite filtered_album_matches_In.
    unfold near_duplicates. split; intros (kc & Hkc & Hm).
    + apply filter_In in Hkc. exists kc. tauto.
    + exists kc. split; [apply filter_In|]; tauto.
  - intros (m & Hm & Hin). split.
    + intros Hkept Hone.
      assert (Happ : after = kept ++ [id item]) by (apply Hyes; now left).
      rewrite Hkept in Happ. apply (f_equal (@List.length string)) in Happ.
      rewrite length_app in Happ. simpl in Happ. lia.
    + intros Hmany. apply Hno. intros [Hone|Hnone]; [contradiction|].
      now apply (Hnone m Hm).
Qed.

(** A cluster of two equal names with another record between them: the
    first is kept when it is met, the later one is dropped, and it is
    dropped because two of its matches are above the threshold. *)
Lemma dedup_keep_rule_first_seen_wins_witness :
  let a := album "a" "Hits" 80 in
  let b := album "b" "Other" 70 in
  let c := album "c" "Hits" 60 in
  let d := dict_comprehension id name [a; b; c] in
  run_loop no_process no_process exact_scorer 99 d [a] [] = ["a"]
  /\ run_loop no_process no_process exact_scorer 99 d [a; b; c] []
     = run_loop no_process no_process exact_scorer 99 d [a; b] []
  /\ (run_loop no_process no_process exact_scorer 99 d [a; b; c] []
      = run_loop no_process no_process exact_scorer 99 d [a; b] []
      <-> List.length
            (filtered_album_matches no_process no_process exact_scorer 99 d c)
          <> 1%nat).
Proof.
  intros a b c d. split; [|split].
  3:{ pose proof (dedup_keep_rule_first_seen_wins no_process no_process
                    exact_scorer [a; b; c] 99 [a; b] c [] eq_refl) as H.
      cbv zeta in H. destruct H as (_ & _ & _ & _ & _ & _ & H).
      apply H. exists (mkAlbumMatch "Hits" 100 "a").
      vm_compute. split; auto. }
  - pose proof (dedup_keep_rule_first_seen_wins no_process no_process exact_scorer
                  [a; b; c] 99 [] a [b; c] eq_refl) as H.
    cbv zeta in H. destruct H as (_ & _ & _ & H & _).
    apply H. intros m _ [].
  - pose proof (dedup_keep_rule_first_seen_wins no_process no_process exact_scorer
                  [a; b; c] 99 [a; b] c [] eq_refl) as H.
    cbv zeta in H. destruct H as (_ & _ & _ & _ & H & _).
    apply (H a).
    + now left.
    + vm_compute. now left.
    + vm_compute. discriminate.
    + exists (mkAlbumMatch "Hits" 100 "a"). vm_compute. split; auto.
    + exists (mkAlbumMatch "Hits" 100 "c"). vm_compute. split; auto.
Defined.

(** ** Running the engine twice *)

Lemma NoDup_app_disjoint {A : Type} (l1 l2 : list A) (x : A) :
  NoDup (l1 ++ l2) -> In x l1 -> In x l2 -> False.
Proof.
  induction l1 as [|y l1 IH]; simpl; intros Hnd Hin1 Hin2; [exact Hin1|].
  inversion Hnd as [|? ? Hy Hl]; subst.
  destruct Hin1 as [->|Hin1]; [|now apply IH].
  apply Hy. apply in_or_app. now right.
Qed.

Lemma Subseq_NoDup {A : Type} (l1 l2 : list A) :
  Subseq l1 l2 -> NoDup l2 -> NoDup l1.
Proof.
  induction 1; intros Hnd.
  - constructor.
  - inversion Hnd; subst. auto.
  - inversion Hnd as [|? ? Hx Hl]; subst. constructor; [|auto].
    intros Hin. apply Hx. eapply Subseq_In; eassumption.
Qed.

Lemma in_split_two {A : Type} (l : list A) (a b : A) :
  In a l -> In b l -> a <> b ->
  (exists l1 l2 l3, l = l1 ++ a :: l2 ++ b :: l3)
  \/ (exists l1 l2 l3, l = l1 ++ b :: l2 ++ a :: l3).
Proof.
  intros Ha Hb Hab. apply in_split in Ha. destruct Ha as (l1 & l2 & ->).
  apply in_app_or in Hb. destruct Hb as [Hb|[Hb|Hb]]; [|congruence|].
  - right. apply in_split in Hb. destruct Hb as (m1 & m2 & ->).
    exists m1, m2, l2. now rewrite <- app_assoc.
  - left. apply in_split in Hb. destruct Hb as (m1 & m2 & ->).
    now exists l1, m1, m2.
Qed.

Section Idempotence.
Variable query_processor : string -> string.
Variable choice_processor : string -> string.
Variable scorer : string -> string -> Z.
Variable threshold : Z.

Local Notation survives' :=
  (survives query_processor choice_processor scorer threshold).
Local Notation extractor' :=
  (extractor_album_ids query_processor choice_processor scorer).
Local Notation symmetric_on' :=
  (symmetric_on query_processor choice_processor scorer).
Local Notation self_maximal_on' :=
  (self_maximal_on query_processor choice_processor scorer).

Lemma survives_symmetric (albums : list Album) (a b : Album) :
  symmetric_on' albums ->
  In a albums -> In b albums ->
  survives' (name a) (id b, name b) = survives' (name b) (id a, name a).
Proof.
  intros Hsym Ha Hb. unfold survives. simpl.
  now rewrite (Hsym a b Ha Hb).
Qed.

Lemma survives_self (albums : list Album) (a b : Album) :
  self_maximal_on' albums ->
  In a albums -> In b albums ->
  survives' (name a) (id b, name b) = true ->
  survives' (name a) (id a, name a) = true.
Proof.
  intros Hmax Ha Hb. unfold survives, score_cutoff. simpl.
  rewrite !andb_true_iff, !Z.leb_le, !Z.ltb_lt.
  pose proof (Hmax a b Ha Hb). lia.
Qed.

(** Among records with distinct identifiers, one that is kept does not
    match a kept record that came before it. *)
Lemma kept_later_does_not_match_kept_earlier
    (pre : list Album) (y : Album) (post : list Album) (x : Album) :
  self_maximal_on' (pre ++ y :: post) ->
  NoDup (map id (pre ++ y :: post)) ->
  In x pre ->
  In (id x) (extractor' (pre ++ y :: post) threshold) ->
  In (id y) (extractor' (pre ++ y :: post) threshold) ->
  survives' (name y) (id x, name x) = false.
Proof.
  intros Hmax Hnd Hx Hkx Hky.
  set (albums := pre ++ y :: post) in *.
  set (d := dict_comprehension id name albums).
  assert (Hd : d = map (fun a => (id a, name a)) albums)
    by (apply dict_comprehension_distinct; exact Hnd).
  set (kept := run_loop query_processor choice_processor
    scorer threshold d pre []).
  destruct (run_loop_extends query_processor choice_processor
    scorer threshold d pre [])
    as (extra & Heq & Hkept).
  fold kept in Heq. simpl in Heq. subst extra.
  destruct (run_loop_extends query_processor choice_processor
    scorer threshold d post
              (loop_body query_processor choice_processor
                scorer threshold d kept y))
    as (later & Hfinal & Hlater).
  assert (HK : extractor' albums threshold
               = loop_body query_processor choice_processor
                 scorer threshold d kept y ++ later).
  { rewrite <- Hfinal. unfold extractor_album_ids. fold d. unfold albums.
    rewrite run_loop_app. reflexivity. }
  rewrite HK in Hkx, Hky. clear HK Hfinal.
  unfold albums in Hnd. rewrite map_app in Hnd. simpl in Hnd.
  assert (Hidx : In (id x) (map id pre)) by now apply in_map.
  assert (Hxy : id x <> id y).
  { intros E. apply (NoDup_app_disjoint _ _ (id x) Hnd Hidx).
    left. now rewrite E. }
  assert (Hx_post : ~ In (id x) (map id post)).
  { intros H. apply (NoDup_app_disjoint _ _ (id x) Hnd Hidx). now right. }
  assert (Hy_pre : ~ In (id y) (map id pre)).
  { intros H. apply (NoDup_app_disjoint _ _ (id y) Hnd H). now left. }
  assert (Hy_post : ~ In (id y) (map id post)).
  { apply NoDup_app_remove_l in Hnd. now inversion Hnd. }
  apply in_app_or in Hkx. destruct Hkx as [Hkx|Hkx];
    [|exfalso; apply Hx_post; eapply Subseq_In; eassumption].
  apply in_app_or in Hky. destruct Hky as [Hky|Hky];
    [|exfalso; apply Hy_post; eapply Subseq_In; eassumption].
  unfold loop_body in Hkx, Hky.
  destruct (keeps query_processor choice_processor
    scorer threshold d kept y) eqn:Hkeeps;
    [|exfalso; apply Hy_pre; eapply Subseq_In; eassumption].
  apply in_app_or in Hkx. destruct Hkx as [Hkx|[E|[]]];
    [|symmetry in E; contradiction].
  destruct (survives' (name y) (id x, name x)) eqn:Hs; [|reflexivity].
  exfalso.
  assert (Hin_x : In (id x, name x)
                     (near_duplicates query_processor choice_processor
                       scorer threshold d y)).
  { apply filter_In. split; [|exact Hs]. rewrite Hd.
    apply (in_map (fun a => (id a, name a))). unfold albums.
    apply in_or_app. now left. }
  assert (Hin_y : In (id y, name y)
                     (near_duplicates query_processor choice_processor
                       scorer threshold d y)).
  { apply filter_In. split.
    - rewrite Hd. apply (in_map (fun a => (id a, name a))). unfold albums.
      apply in_elt.
    - apply (survives_self albums y x Hmax); [| |exact Hs]; unfold albums.
      + apply in_elt.
      + apply in_or_app. now left. }
  apply keeps_true_iff in Hkeeps. destruct Hkeeps as [Hone|Hnone].
  - pose proof (length_one_unique _ _ _ Hone Hin_x Hin_y) as E.
    injection E as E _. contradiction.
  - apply (Hnone _ Hin_x). exact Hkx.
Qed.

Lemma kept_records_do_not_match (albums : list Album) (a b : Album) :
  symmetric_on' albums ->
  self_maximal_on' albums ->
  NoDup (map id albums) ->
  In a albums -> In b albums ->
  In (id a) (extractor' albums threshold) ->
  In (id b) (extractor' albums threshold) ->
  id a <> id b ->
  survives' (name a) (id b, name b) = false.
Proof.
  intros Hsym Hmax Hnd Ha Hb Hka Hkb Hab.
  assert (Hne : a <> b) by congruence.
  destruct (in_split_two albums a b Ha Hb Hne)
    as [(l1 & l2 & l3 & E)|(l1 & l2 & l3 & E)].
  - rewrite (survives_symmetric albums a b Hsym Ha Hb).
    rewrite app_comm_cons, app_assoc in E. subst albums.
    apply (kept_later_does_not_match_kept_earlier (l1 ++ a :: l2) b l3 a);
      auto.
    apply in_elt.
  - rewrite app_comm_cons, app_assoc in E. subst albums.
    apply (kept_later_does_not_match_kept_earlier (l1 ++ b :: l2) a l3 b);
      auto.
    apply in_elt.
Qed.

Lemma engine_idempotent (albums : list Album) :
  symmetric_on' albums ->
  self_maximal_on' albums ->
  NoDup (map id albums) ->
  exists out,
    deduplicate_by_name_and_add_popularity query_processor choice_processor
      scorer albums threshold
    = inr out
    /\ deduplicate_by_name_and_add_popularity query_processor choice_processor
      scorer out threshold
       = inr out.
Proof.
  intros Hsym Hmax Hnd.
  destruct (engine_cases query_processor choice_processor
    scorer threshold albums)
    as [[_ H]|(_ & found & H & Hids & Hall)].
  - exists albums. split; exact H.
  - exists (sorted_desc popularity found). split; [exact H|].
    set (out := sorted_desc popularity found).
    assert (Hperm : Permutation out found) by apply sorted_desc_perm.
    assert (Hnd_out : NoDup (map id out)).
    { apply (Permutation_NoDup
               (Permutation_sym (Permutation_map id Hperm))).
      rewrite Hids. eapply Subseq_NoDup; [apply extractor_Subseq|exact Hnd]. }
    assert (Hin : forall r, In r out ->
                    In r albums /\ In (id r) (extractor' albums threshold)).
    { intros r Hr. apply (Permutation_in _ Hperm) in Hr.
      destruct (Forall2_In_r _ _ _ _ Hall Hr) as (k & Hk & Hid & Hr').
      split; [exact Hr'|]. now rewrite Hid. }
  apply engine_identity_pairwise.
  intros i j a b Hij Hi Hj.
    destruct (Hin a (nth_error_In _ _ Hi)) as [Ha Hka].
    destruct (Hin b (nth_error_In _ _ Hj)) as [Hb Hkb].
    apply (kept_records_do_not_match albums a b Hsym Hmax); auto.
    intros E. apply Hij.
    apply (proj1 (NoDup_nth_error (map id out)) Hnd_out).
    + rewrite length_map. apply nth_error_Some. congruence.
    + rewrite !nth_error_map, Hi, Hj. simpl. now rewrite E.
Qed.
End Idempotence.

(** C5, as stated, fails in three ways.  With a scorer that is not
    symmetric the second run drops ["Hit"], which the first run kept before
    it met ["Hits"].  With a symmetric scorer under which a name can score
    higher against another name than against itself, the second run drops
    ["abc"].  And with two records under one identifier the second run sees
    the later name under that identifier and drops it as a duplicate. *)
Lemma dedup_idempotent_counterexample :
  let once := deduplicate_by_name_and_add_popularity in
  let by_prefix := [album "x" "Hit" 10; album "y" "Hits" 20;
                    album "z" "Hit" 5] in
  let by_length := [album "x" "abc" 10; album "y" "a" 20;
                    album "z" "ab" 5] in
  let shared_id := [album "x" "Hits" 10; album "y" "Other" 20;
                    album "y" "Hits" 5] in
  (once no_process no_process prefix_scorer by_prefix 99
   = inr [album "y" "Hits" 20; album "x" "Hit" 10]
   /\ run_twice no_process no_process prefix_scorer by_prefix 99
      = inr [album "y" "Hits" 20]
   /\ run_twice no_process no_process prefix_scorer by_prefix 99
      <> once no_process no_process prefix_scorer by_prefix 99)
  /\ (once no_process no_process length_scorer by_length 3
      = inr [album "y" "a" 20; album "x" "abc" 10]
      /\ run_twice no_process no_process length_scorer by_length 3
         = inr [album "y" "a" 20]
      /\ run_twice no_process no_process length_scorer by_length 3
         <> once no_process no_process length_scorer by_length 3)
  /\ (once no_process no_process exact_scorer shared_id 99
      = inr [album "x" "Hits" 10; album "y" "Hits" 5]
      /\ run_twice no_process no_process exact_scorer shared_id 99
         = inr [album "x" "Hits" 10]
      /\ run_twice no_process no_process exact_scorer shared_id 99
         <> once no_process no_process exact_scorer shared_id 99).
Proof. vm_compute. repeat split; try reflexivity; discriminate. Qed.

(** C5, amended. When the identifiers of the input are distinct and, over
    the names of the input, the score the matcher gives is the same whichever
    name is the query and whichever the choice, and is never higher against
    another name than against the query name itself, the engine applied to
    its own result returns that result unchanged, for every threshold. *)
Theorem dedup_idempotent_symmetric_scorer :
  forall (query_processor choice_processor : string -> string)
         (scorer : string -> string -> Z)
         (albums : list Album) (threshold : Z),
    NoDup (map id albums) ->
    symmetric_on query_processor choice_processor scorer albums ->
    self_maximal_on query_processor choice_processor scorer albums ->
    exists out,
      deduplicate_by_name_and_add_popularity query_processor choice_processor
        scorer albums threshold = inr out
      /\ deduplicate_by_name_and_add_popularity query_processor
           choice_processor scorer out threshold = inr out.
Proof.
  intros query_processor choice_processor scorer albums threshold
         Hnd Hsym Hmax.
  destruct (engine_idempotent query_processor choice_processor scorer
              threshold albums Hsym Hmax Hnd) as (out & Hfirst & Hsecond).
  exists out. split; assumption.
Qed.

Lemma exact_scorer_symmetric (s1 s2 : string) :
  exact_scorer s1 s2 = exact_scorer s2 s1.
Proof. unfold exact_scorer. now rewrite String.eqb_sym. Qed.

Lemma exact_scorer_self_maximal (s1 s2 : string) :
  exact_scorer s1 s2 <= exact_scorer s1 s1.
Proof.
  unfold exact_scorer. rewrite String.eqb_refl.
  destruct (String.eqb s1 s2); lia.
Qed.

(** The engine run on four records, two of them under the same name, and
    run again on what it returned. *)
Lemma dedup_idempotent_symmetric_scorer_witness :
  let albums := [album "a" "One" 10; album "b" "Two" 30;
                 album "c" "Three" 30; album "d" "One" 50] in
  exists out,
    deduplicate_by_name_and_add_popularity no_process no_process exact_scorer albums 99
    = inr out
    /\ deduplicate_by_name_and_add_popularity no_process no_process exact_scorer out 99
       = inr out.
Proof.
  intros albums.
  apply dedup_idempotent_symmetric_scorer.
  - repeat constructor; simpl; intuition discriminate.
  - intros a b _ _. apply exact_scorer_symmetric.
  - intros a b _ _. apply exact_scorer_self_maximal.
Defined.

(** ** The chunker *)

Section ChunkFacts.
Context {T : Type}.
Implicit Types (l : list T) (c i k : nat).

Lemma slice_nonneg l (lo hi : Z) :
  0 <= lo -> 0 <= hi ->
  slice l lo hi = skipn (Z.to_nat lo) (firstn (Z.to_nat hi) l).
Proof.
  intros Hlo Hhi. unfold slice, slice_bound.
  destruct (Z.ltb_spec lo 0) as [?|_]; [lia|].
  destruct (Z.ltb_spec hi 0) as [?|_]; [lia|].
  rewrite !Z2Nat.inj_min, !Nat2Z.id.
  rewrite <- (firstn_firstn l (Z.to_nat hi) (List.length l)).
  rewrite (firstn_all2 (n := List.length l) l) by lia.
  destruct (Nat.le_ge_cases (Z.to_nat lo) (List.length l)) as [H|H].
  - now rewrite Nat.min_l by exact H.
  - rewrite Nat.min_r by exact H.
    rewrite !skipn_all2; [reflexivity| |];
      rewrite length_firstn; lia.
Qed.

Lemma chunk_at_length c l i :
  List.length (chunk_at c l i)
  = (Nat.min (i * c + c) (List.length l) - i * c)%nat.
Proof. unfold chunk_at. now rewrite length_skipn, length_firstn. Qed.

Lemma concat_chunk_at c l k :
  concat (map (chunk_at c l) (seq 0 k)) = firstn (k * c) l.
Proof.
  induction k as [|k IH]; [reflexivity|].
  rewrite seq_S, map_app, concat_app, IH. simpl.
  rewrite app_nil_r. unfold chunk_at.
  replace (firstn (k * c) l)
    with (firstn (k * c) (firstn (k * c + c) l))
    by (rewrite firstn_firstn; f_equal; lia).
  rewrite firstn_skipn. f_equal. lia.
Qed.

Lemma nth_error_chunk_at c l k i (ck : list T) :
  nth_error (map (chunk_at c l) (seq 0 k)) i = Some ck ->
  (i < k)%nat /\ ck = chunk_at c l i.
Proof.
  rewrite nth_error_map, nth_error_seq.
  destruct (Nat.ltb_spec i k); simpl; [|discriminate].
  intros E. injection E as <-. auto.
Qed.

(** What [chunks] computes for a positive size. *)
Lemma chunks_positive l (chunk_size : Z) :
  0 < chunk_size ->
  chunks l chunk_size
  = inr (map (chunk_at (Z.to_nat chunk_size) l)
             (seq 0 (Z.to_nat (range_len 0 (Z.of_nat (List.length l))
                                         chunk_size)))).
Proof.
  intros Hpos. unfold chunks, range.
  destruct (Z.eqb_spec chunk_size 0) as [?|_]; [lia|].
  simpl. unfold ret. f_equal. rewrite map_map.
  apply map_ext. intros i. rewrite slice_nonneg by nia.
  unfold chunk_at. f_equal; [|f_equal]; nia.
Qed.

(** The number of chunks is the length divided by the size, rounded up. *)
Lemma range_len_bounds (n chunk_size : Z) :
  0 <= n -> 0 < chunk_size ->
  let count := range_len 0 n chunk_size in
  0 <= count
  /\ (n = 0 -> count = 0)
  /\ n <= count * chunk_size
  /\ (0 < n -> (count - 1) * chunk_size < n).
Proof.
  intros Hn Hpos. unfold range_len.
  destruct (Z.ltb_spec 0 chunk_size) as [_|?]; [|lia].
  destruct (Z.ltb_spec 0 n) as [Hlt|Hge]; simpl.
  - pose proof (Z.mul_div_le (n - 0 - 1) chunk_size Hpos).
    pose proof (Z.mul_succ_div_gt (n - 0 - 1) chunk_size Hpos).
    pose proof (Z.div_pos (n - 0 - 1) chunk_size ltac:(lia) Hpos).
    nia.
  - lia.
Qed.
End ChunkFacts.

(** C6. For a positive chunk size the chunker yields a finite list of
    chunks whose concatenation is the input; every chunk but the last has
    exactly [chunk_size] elements and the last holds the remainder, between
    one and [chunk_size] elements; the empty input yields no chunk; and an
    input of 105 elements cut by 50 yields chunks of 50, 50 and 5. *)
Theorem chunks_partition :
  forall (T : Type) (list_ : list T) (chunk_size : Z),
    0 < chunk_size ->
    exists cks,
      chunks list_ chunk_size = inr cks
      /\ concat cks = list_
      /\ (forall i ck,
             nth_error cks i = Some ck ->
             (S i < List.length cks)%nat ->
             Z.of_nat (List.length ck) = chunk_size)
      /\ (forall ck,
             nth_error cks (List.length cks - 1) = Some ck ->
             0 < Z.of_nat (List.length ck) <= chunk_size
             /\ Z.of_nat (List.length ck)
                = Z.of_nat (List.length list_)
                  - (Z.of_nat (List.length cks) - 1) * chunk_size)
      /\ (list_ = [] -> cks = [])
      /\ (List.length list_ = 105%nat -> chunk_size = 50 ->
          map (@List.length T) cks = [50; 50; 5]%nat).
Proof.
  intros T list_ chunk_size Hpos.
  set (n := List.length list_).
  set (c := Z.to_nat chunk_size).
  set (count := Z.to_nat (range_len 0 (Z.of_nat n) chunk_size)).
  destruct (range_len_bounds (Z.of_nat n) chunk_size ltac:(lia) Hpos)
    as (Hc0 & Hzero & Hup & Hlow).
  assert (Hup' : (n <= count * c)%nat) by (unfold count, c; nia).
  assert (Hlow' : (0 < n -> (count - 1) * c < n)%nat)
    by (unfold count, c; nia).
  exists (map (chunk_at c list_) (seq 0 count)).
  split; [now apply chunks_positive|].
  rewrite length_map, length_seq.
  split; [|split; [|split; [|split]]].
  - rewrite concat_chunk_at. now apply firstn_all2.
  - intros i ck Hck Hi. apply nth_error_chunk_at in Hck.
    destruct Hck as [_ ->]. rewrite chunk_at_length. fold n.
    assert (i * c + c <= (count - 1) * c)%nat by nia.
    unfold c in *. nia.
  - intros ck Hck. apply nth_error_chunk_at in Hck.
    destruct Hck as [Hi ->]. rewrite chunk_at_length. fold n.
    assert (Hn : (0 < n)%nat) by nia.
    specialize (Hlow' Hn).
    assert (Hcount : Z.of_nat count = range_len 0 (Z.of_nat n) chunk_size)
      by (unfold count; lia).
    assert (Hcz : Z.of_nat c = chunk_size) by (unfold c; lia).
    replace (count - 1 + 1 - 1)%nat with (count - 1)%nat in * by lia.
    assert (Hmin : Nat.min ((count - 1) * c + c) n = n) by nia.
    rewrite Hmin. nia.
  - intros E.
    assert (Hn0 : Z.of_nat n = 0) by (unfold n; rewrite E; reflexivity).
    unfold count. rewrite (Hzero Hn0). reflexivity.
  - intros Hlen Hsize. rewrite map_map.
    rewrite (map_ext _ _ (chunk_at_length c list_)).
    unfold count, c. fold n. rewrite Hlen, Hsize. reflexivity.
Qed.

(** The engine's own batch of 105 identifiers in chunks of 50. *)
Lemma chunks_partition_witness :
  exists cks,
    chunks (seq 0 105) 50 = inr cks
    /\ concat cks = seq 0 105
    /\ map (@List.length nat) cks = [50; 50; 5]%nat.
Proof.
  destruct (chunks_partition nat (seq 0 105) 50 ltac:(lia))
    as (cks & Heq & Hcat & _ & _ & _ & Hlen).
  exists cks. split; [exact Heq|]. split; [exact Hcat|].
  apply Hlen; reflexivity.
Defined.

(** C7, as stated: every chunk size at or below zero is rejected with an
    error.  A negative size is not: the generator ends without a chunk and
    without an exception, whatever the list holds. *)
Lemma chunks_rejects_nonpositive_counterexample :
  ~ (exists e : py_error, chunks [1; 2; 3] (-1) = inl e)
  /\ chunks [1; 2; 3] (-1) = inr [].
Proof.
  split; [|reflexivity].
  intros (e & He). vm_compute in He. discriminate He.
Qed.

(** C7, amended. A chunk size of zero makes the generator raise the
    [ValueError] of [range], for every list; a negative chunk size raises
    nothing and yields no chunk, for every list. *)
Theorem chunks_nonpositive_size :
  forall (T : Type) (list_ : list T),
    chunks list_ 0 = inl ValueError
    /\ (forall chunk_size, chunk_size < 0 -> chunks list_ chunk_size = inr []).
Proof.
  intros T list_. split; [reflexivity|].
  intros chunk_size Hneg. unfold chunks, range, range_len.
  destruct (Z.eqb_spec chunk_size 0) as [?|_]; [lia|].
  destruct (Z.ltb_spec 0 chunk_size) as [?|_]; [lia|].
  destruct (Z.ltb_spec (Z.of_nat (List.length list_)) 0) as [?|_]; [lia|].
  reflexivity.
Qed.

(** A list of three cut with size [-2], and cut with size [0]. *)
Lemma chunks_nonpositive_size_witness :
  chunks [1; 2; 3] 0 = inl ValueError /\ chunks [1; 2; 3] (-2) = inr [].
Proof.
  destruct (chunks_nonpositive_size Z [1; 2; 3]) as [Hzero Hneg].
  split; [exact Hzero|]. apply Hneg. lia.
Defined.

(** * Further properties *)

(** ** The kept identifiers and the result *)

Lemma NoDup_map_injective {A B : Type} (f : A -> B) (l : list A) (a b : A) :
  NoDup (map f l) -> In a l -> In b l -> f a = f b -> a = b.
Proof.
  induction l as [|x l IH]; simpl; intros Hnd Ha Hb E; [contradiction|].
  inversion Hnd as [|? ? Hx Hl]; subst.
  destruct Ha as [<-|Ha], Hb as [<-|Hb]; auto.
  - exfalso. apply Hx. rewrite E. now apply in_map.
  - exfalso. apply Hx. rewrite <- E. now apply in_map.
Qed.

Section OutputFacts.
Variable query_processor : string -> string.
Variable choice_processor : string -> string.
Variable scorer : string -> string -> Z.
Variable threshold : Z.

Local Notation engine' :=
  (deduplicate_by_name_and_add_popularity query_processor choice_processor
    scorer).
Local Notation extractor' := (extractor_album_ids query_processor choice_processor
  scorer).

(** No lookup of a kept identifier fails. *)
Lemma engine_returns (albums : list Album) :
  exists out, engine' albums threshold = inr out.
Proof.
  destruct (engine_cases query_processor choice_processor
    scorer threshold albums)
    as [[_ H]|(_ & found & H & _)]; eauto.
Qed.

(** The identifiers of the result are the kept identifiers, up to the order
    the sort gives them, and every record of the result is an input record. *)
Lemma engine_output_kept (albums out : list Album) :
  engine' albums threshold = inr out ->
  Permutation (map id out) (extractor' albums threshold)
  /\ (forall r, In r out -> In r albums).
Proof.
  intros Hout.
  destruct (engine_cases query_processor choice_processor
    scorer threshold albums)
    as [[Hlen H]|(_ & found & H & Hids & Hall)];
    rewrite H in Hout; injection Hout as <-.
  - split; [|auto].
    rewrite <- (Subseq_length_eq _ _
                  (extractor_Subseq query_processor choice_processor
                    scorer threshold albums));
      [apply Permutation_refl|].
    now rewrite length_map.
  - split.
    + rewrite <- Hids. apply Permutation_map, sorted_desc_perm.
    + intros r Hr. apply sorted_desc_In in Hr.
      destruct (Forall2_In_r _ _ _ _ Hall Hr) as (k & _ & _ & Hin).
      exact Hin.
Qed.

(** With distinct identifiers, the records of the result are the input
    records whose identifier was kept. *)
Lemma engine_output_In (albums out : list Album) (r : Album) :
  NoDup (map id albums) ->
  engine' albums threshold = inr out ->
  In r out <-> In r albums /\ In (id r) (extractor' albums threshold).
Proof.
  intros Hnd Hout.
  destruct (engine_output_kept albums out Hout) as [Hperm Hin].
  split.
  - intros Hr. split; [now apply Hin|].
    apply (Permutation_in _ Hperm). now apply in_map.
  - intros [Hr Hk].
    apply (Permutation_in _ (Permutation_sym Hperm)) in Hk.
    apply in_map_iff in Hk. destruct Hk as (r' & E & Hr').
    rewrite <- (NoDup_map_injective id albums r' r Hnd); auto.
Qed.
End OutputFacts.

(** X1. The kept identifiers are input identifiers in input order; the
    result has one record for each of them, under the same identifiers; and
    no identifier occurs twice in the result when none does in the input. *)
Theorem dedup_kept_identifiers :
  forall (query_processor choice_processor : string -> string)
         (scorer : string -> string -> Z)
         (albums : list Album) (threshold : Z),
    let kept := extractor_album_ids query_processor choice_processor
      scorer albums threshold in
    Subseq kept (map id albums)
    /\ exists out,
         deduplicate_by_name_and_add_popularity query_processor choice_processor
           scorer
           albums threshold = inr out
         /\ Permutation (map id out) kept
         /\ List.length out = List.length kept
         /\ (NoDup (map id albums) -> NoDup (map id out)).
Proof.
  intros query_processor choice_processor scorer albums threshold kept.
  pose proof (extractor_Subseq query_processor choice_processor
    scorer threshold albums) as Hsub.
  split; [exact Hsub|].
  destruct (engine_returns query_processor choice_processor
    scorer threshold albums)
    as (out & Hout).
  destruct (engine_output_kept query_processor choice_processor
    scorer threshold albums out Hout)
    as [Hperm _].
  exists out. split; [exact Hout|]. split; [exact Hperm|]. split.
  - rewrite <- (length_map id out). now apply Permutation_length.
  - intros Hnd. apply (Permutation_NoDup (Permutation_sym Hperm)).
    eapply Subseq_NoDup; eassumption.
Qed.

(** Four records, two under one name: three identifiers are kept. *)
Lemma dedup_kept_identifiers_witness :
  let albums := [album "a" "One" 10; album "b" "Two" 30;
                 album "c" "Three" 30; album "d" "One" 50] in
  exists out,
    deduplicate_by_name_and_add_popularity no_process no_process exact_scorer albums 99
    = inr out
    /\ NoDup (map id out).
Proof.
  intros albums.
  destruct (dedup_kept_identifiers no_process no_process exact_scorer albums 99)
    as (_ & out & Hout & _ & _ & Hnd).
  exists out. split; [exact Hout|]. apply Hnd.
  repeat constructor; simpl; intuition discriminate.
Defined.

(** ** Looking a record up by its identifier *)

Section LookupFacts.
Context {V : Type}.
Implicit Types (d : dict V) (k : string) (v : V).

Lemma dict_get_set_same d k v : dict_get (dict_set k v d) k = inr v.
Proof.
  induction d as [|[k0 v0] d IH]; simpl.
  - now rewrite String.eqb_refl.
  - destruct (String.eqb k0 k) eqn:E; simpl.
    + now rewrite String.eqb_refl.
    + now rewrite E.
Qed.

Lemma dict_get_set_other d k k' v :
  k' <> k -> dict_get (dict_set k' v d) k = dict_get d k.
Proof.
  intros Hne. induction d as [|[k0 v0] d IH]; simpl.
  - apply String.eqb_neq in Hne. now rewrite Hne.
  - destruct (String.eqb k0 k') eqn:E; simpl.
    + apply String.eqb_eq in E. subst k0.
      apply String.eqb_neq in Hne. now rewrite Hne.
    + destruct (String.eqb k0 k); [reflexivity | exact IH].
Qed.

Lemma dict_get_missing d k :
  ~ In k (keys d) -> dict_get d k = inl (KeyError k).
Proof.
  induction d as [|[k0 v0] d IH]; simpl; intros Hk; [reflexivity|].
  destruct (String.eqb k0 k) eqn:E.
  - apply String.eqb_eq in E. tauto.
  - apply IH. tauto.
Qed.
End LookupFacts.

Lemma fold_assign_get_other {A V : Type} (key : A -> string) (val : A -> V)
    (xs : list A) (d : dict V) (k : string) :
  ~ In k (map key xs) ->
  dict_get (fold_left (assign key val) xs d) k = dict_get d k.
Proof.
  revert d. induction xs as [|x xs IH]; simpl; intros d Hk; [reflexivity|].
  rewrite IH by tauto. unfold assign. apply dict_get_set_other.
  intros E. apply Hk. now left.
Qed.

(** X2. In a dictionary comprehension the last element under a key wins: a
    lookup returns the value of the last element that carries the key, and
    raises [KeyError] when no element does.  So [album_id_dict] gives the
    last record under an identifier. *)
Theorem dict_comprehension_lookup :
  forall (A V : Type) (key : A -> string) (val : A -> V),
    (forall (pre : list A) (x : A) (post : list A),
        ~ In (key x) (map key post) ->
        dict_get (dict_comprehension key val (pre ++ x :: post)) (key x)
        = inr (val x))
    /\ (forall (xs : list A) (k : string),
           ~ In k (map key xs) ->
           dict_get (dict_comprehension key val xs) k = inl (KeyError k)).
Proof.
  intros A V key val. split.
  - intros pre x post Hpost. unfold dict_comprehension.
    rewrite fold_left_app. simpl.
    rewrite fold_assign_get_other by exact Hpost.
    unfold assign at 1. apply dict_get_set_same.
  - intros xs k Hk. apply dict_get_missing.
    now rewrite dict_comprehension_keys_In.
Qed.

(** Two records under the identifier ["y"]: the lookup gives the later. *)
Lemma dict_comprehension_lookup_witness :
  dict_get (dict_comprehension id (fun a : Album => a)
              ([album "x" "Hits" 10; album "y" "Other" 20]
                 ++ album "y" "Hits" 5 :: [album "z" "More" 1])) "y"
  = inr (album "y" "Hits" 5)
  /\ dict_get (dict_comprehension id (fun a : Album => a)
                 [album "x" "Hits" 10]) "q"
     = inl (KeyError "q").
Proof.
  destruct (dict_comprehension_lookup Album Album id (fun a => a))
    as [Hlast Hmiss].
  split.
  - apply (Hlast [album "x" "Hits" 10; album "y" "Other" 20]
                 (album "y" "Hits" 5) [album "z" "More" 1]).
    simpl. intuition discriminate.
  - apply Hmiss. simpl. intuition discriminate.
Defined.

Lemma last_occurrence {A : Type} (key : A -> string) (xs : list A)
    (k : string) :
  In k (map key xs) ->
  exists pre x post,
    xs = pre ++ x :: post /\ key x = k /\ ~ In k (map key post).
Proof.
  induction xs as [|y xs IH]; simpl; [intros []|].
  intros Hin.
  destruct (in_dec string_dec k (map key xs)) as [Hk|Hk].
  - destruct (IH Hk) as (pre & x & post & -> & Hx & Hpost).
    exists (y :: pre), x, post. auto.
  - destruct Hin as [Hy|Hin]; [|contradiction].
    exists [], y, xs. auto.
Qed.

Lemma dict_comprehension_entry_last {A V : Type} (key : A -> string)
    (val : A -> V) (xs : list A) (k : string) (v : V) :
  In (k, v) (dict_comprehension key val xs) ->
  exists pre x post,
    xs = pre ++ x :: post /\ key x = k /\ val x = v
    /\ ~ In k (map key post).
Proof.
  intros Hin.
  assert (Hk : In k (map key xs)).
  { apply (dict_comprehension_keys_In key val).
    apply (in_map fst) in Hin. exact Hin. }
  destruct (last_occurrence key xs k Hk) as (pre & x & post & E & Hx & Hpost).
  exists pre, x, post. repeat split; auto.
  apply (dict_get_NoDup _ _ _ (dict_comprehension_NoDup key val xs)) in Hin.
  subst xs k. unfold dict_comprehension in Hin.
  rewrite fold_left_app in Hin. simpl in Hin.
  rewrite fold_assign_get_other in Hin by exact Hpost.
  unfold assign in Hin at 1. rewrite dict_get_set_same in Hin.
  now injection Hin.
Qed.

(** X3. When the result is shorter than the input, each of its records is
    the last input record under its identifier: an identifier is kept where
    it is first met, but the record returned for it is the one the
    dictionary holds, which is the last one stored. *)
Theorem dedup_returns_last_record_under_identifier :
  forall (query_processor choice_processor : string -> string)
         (scorer : string -> string -> Z)
         (albums : list Album) (threshold : Z) (out : list Album),
    deduplicate_by_name_and_add_popularity query_processor choice_processor
      scorer albums threshold
    = inr out ->
    List.length out <> List.length albums ->
    forall r,
      In r out ->
      exists pre post,
        albums = pre ++ r :: post /\ ~ In (id r) (map id post).
Proof.
  intros query_processor choice_processor
    scorer albums threshold out Hout Hlen r Hr.
  unfold deduplicate_by_name_and_add_popularity in Hout.
  set (kept := extractor_album_ids query_processor choice_processor
    scorer albums threshold) in *.
  destruct (Nat.eqb_spec (List.length kept) (List.length albums)) as [E|E];
    simpl in Hout.
  - injection Hout as <-. contradiction.
  - destruct (mapM_dict_get
                (dict_comprehension id (fun album : Album => album) albums)
                kept) as (found & Hfound & Hall).
    { intros k Hk. apply dict_comprehension_keys_In.
      eapply Subseq_In; [apply extractor_Subseq | exact Hk]. }
    rewrite Hfound in Hout. simpl in Hout. injection Hout as <-.
    apply sorted_desc_In in Hr.
    destruct (Forall2_In_r _ _ _ _ Hall Hr) as (k & _ & Hentry).
    apply dict_comprehension_entry_last in Hentry.
    destruct Hentry as (pre & x & post & -> & Hk & -> & Hpost).
    exists pre, post. split; [reflexivity|]. now rewrite Hk.
Qed.

(** Two records under ["y"]: the first is met and kept, the second is the
    one returned. *)
Lemma dedup_returns_last_record_under_identifier_witness :
  let albums := [album "x" "Hits" 10; album "y" "Other" 20;
                 album "y" "Hits" 5] in
  deduplicate_by_name_and_add_popularity no_process no_process exact_scorer albums 99
  = inr [album "x" "Hits" 10; album "y" "Hits" 5]
  /\ exists pre post,
       albums = pre ++ album "y" "Hits" 5 :: post
       /\ ~ In "y" (map id post).
Proof.
  intros albums.
  assert (E : deduplicate_by_name_and_add_popularity no_process no_process exact_scorer
                albums 99
              = inr [album "x" "Hits" 10; album "y" "Hits" 5])
    by (vm_compute; reflexivity).
  split; [exact E|].
  apply (dedup_returns_last_record_under_identifier no_process no_process exact_scorer
           albums 99 _ E).
  - simpl. discriminate.
  - simpl. auto.
Defined.

(** ** What deduplication achieves *)

Lemma survives_false_iff (query_processor choice_processor : string -> string)
    (scorer : string -> string -> Z) (threshold : Z) (q : string)
    (kc : string * string) :
  survives query_processor choice_processor scorer threshold q kc = false
  <-> match_score query_processor choice_processor
    scorer q (snd kc) <= threshold
      \/ match_score query_processor choice_processor scorer q (snd kc) < 0.
Proof.
  unfold survives, score_cutoff.
  rewrite andb_false_iff, Z.leb_gt, Z.ltb_ge. tauto.
Qed.

Lemma survives_true_iff (query_processor choice_processor : string -> string)
    (scorer : string -> string -> Z) (threshold : Z) (q : string)
    (kc : string * string) :
  survives query_processor choice_processor scorer threshold q kc = true
  <-> 0 <= match_score query_processor choice_processor scorer q (snd kc)
      /\ threshold < match_score query_processor choice_processor
        scorer q (snd kc).
Proof.
  unfold survives, score_cutoff.
  rewrite andb_true_iff, Z.leb_le, Z.ltb_lt. tauto.
Qed.

Lemma is_empty_map_filter_false {A B : Type} (f : A -> B) (p : A -> bool)
    (l : list A) :
  is_empty (map f (filter p l)) = false ->
  exists x, In x l /\ p x = true.
Proof.
  induction l as [|x l IH]; simpl; [discriminate|].
  destruct (p x) eqn:E; simpl.
  - intros _. exists x. auto.
  - intros H. destruct (IH H) as (y & Hy & Hp). exists y. auto.
Qed.

(** X4. With distinct identifiers, when over the names of the input the
    score the matcher gives is the same whichever name is the query and is
    never higher against another name than against the query name itself, no
    two records of the result are near-duplicates: the name of one never
    scores above the threshold (at or above the cutoff of the matcher)
    against the name of another. *)
Theorem dedup_output_free_of_duplicates :
  forall (query_processor choice_processor : string -> string)
         (scorer : string -> string -> Z)
         (albums : list Album) (threshold : Z) (out : list Album),
    NoDup (map id albums) ->
    symmetric_on query_processor choice_processor scorer albums ->
    self_maximal_on query_processor choice_processor scorer albums ->
    deduplicate_by_name_and_add_popularity query_processor choice_processor
      scorer albums threshold = inr out ->
    forall i j a b,
      i <> j ->
      nth_error out i = Some a ->
      nth_error out j = Some b ->
      match_score query_processor choice_processor scorer (name a) (name b)
      <= threshold
      \/ match_score query_processor choice_processor scorer
           (name a) (name b) < 0.
Proof.
  intros query_processor choice_processor scorer albums threshold out
         Hnd Hsym Hmax Hout i j a b Hij Hi Hj.
  destruct (engine_output_kept query_processor choice_processor scorer
              threshold albums out Hout) as [Hperm _].
  assert (Hnd_out : NoDup (map id out)).
  { apply (Permutation_NoDup (Permutation_sym Hperm)).
    eapply Subseq_NoDup; [apply extractor_Subseq | exact Hnd]. }
  apply nth_error_In in Hi as Ha. apply nth_error_In in Hj as Hb.
  apply (engine_output_In query_processor choice_processor scorer threshold
           albums out a Hnd Hout) in Ha.
  apply (engine_output_In query_processor choice_processor scorer threshold
           albums out b Hnd Hout) in Hb.
  destruct Ha as [Ha Hka], Hb as [Hb Hkb].
  apply (survives_false_iff query_processor choice_processor scorer threshold
           (name a) (id b, name b)).
  apply (kept_records_do_not_match query_processor choice_processor scorer
           threshold albums a b Hsym Hmax); auto.
  intros E. apply Hij.
  apply (proj1 (NoDup_nth_error (map id out)) Hnd_out).
  - rewrite length_map. apply nth_error_Some. congruence.
  - rewrite !nth_error_map, Hi, Hj. simpl. now rewrite E.
Qed.

(** The two records that remain of four score 0 against each other. *)
Lemma dedup_output_free_of_duplicates_witness :
  match_score no_process no_process exact_scorer "Two" "One" <= 99
  \/ match_score no_process no_process exact_scorer "Two" "One" < 0.
Proof.
  apply (dedup_output_free_of_duplicates no_process no_process exact_scorer
           [album "a" "One" 10; album "b" "Two" 30; album "d" "One" 50] 99
           [album "b" "Two" 30; album "a" "One" 10]
           ltac:(repeat constructor; simpl; intuition discriminate)
           ltac:(intros a b _ _; apply exact_scorer_symmetric)
           ltac:(intros a b _ _; apply exact_scorer_self_maximal)
           ltac:(vm_compute; reflexivity)
           0%nat 1%nat (album "b" "Two" 30) (album "a" "One" 10)
           ltac:(discriminate) eq_refl eq_refl).
Defined.

(** An item whose identifier is not kept matches, above the threshold, an
    earlier item whose identifier is. *)
Lemma unkept_item_matches_kept (query_processor choice_processor
  : string -> string)
    (scorer : string -> string -> Z) (threshold : Z)
    (pre : list Album) (item : Album) (post : list Album) :
  let albums := pre ++ item :: post in
  NoDup (map id albums) ->
  ~ In (id item) (extractor_album_ids query_processor choice_processor
    scorer albums threshold) ->
  exists r,
    In r pre
    /\ In (id r) (extractor_album_ids query_processor choice_processor
      scorer albums threshold)
    /\ survives query_processor choice_processor
      scorer threshold (name item) (id r, name r) = true.
Proof.
  intros albums Hnd Hnot.
  set (d := dict_comprehension id name albums).
  assert (Hd : d = map (fun a => (id a, name a)) albums)
    by (apply dict_comprehension_distinct; exact Hnd).
  set (kept := run_loop query_processor choice_processor
    scorer threshold d pre []).
  destruct (run_loop_extends query_processor choice_processor
    scorer threshold d pre [])
    as (extra & Heq & Hkept).
  fold kept in Heq. simpl in Heq. subst extra.
  destruct (run_loop_extends query_processor choice_processor
    scorer threshold d post
              (loop_body query_processor choice_processor
                scorer threshold d kept item))
    as (later & Hfinal & _).
  assert (HK : extractor_album_ids query_processor choice_processor
    scorer albums threshold
               = loop_body query_processor choice_processor
                 scorer threshold d kept item ++ later).
  { rewrite <- Hfinal. unfold extractor_album_ids. fold d. unfold albums.
    rewrite run_loop_app. reflexivity. }
  unfold loop_body in HK.
  destruct (keeps query_processor choice_processor
    scorer threshold d kept item) eqn:Hkeeps.
  { exfalso. apply Hnot. rewrite HK. apply in_or_app. left.
    apply in_or_app. right. now left. }
  unfold keeps in Hkeeps. apply orb_false_iff in Hkeeps.
  destruct Hkeeps as [_ Hsome].
  apply is_empty_map_filter_false in Hsome.
  destruct Hsome as (m & Hm & Hmem).
  apply mem_true_iff in Hmem.
  apply filtered_album_matches_In in Hm.
  destruct Hm as ([k n] & Hkc & ->). simpl in Hmem.
  apply filter_In in Hkc. destruct Hkc as [Hin Hs].
  rewrite Hd in Hin. apply in_map_iff in Hin.
  destruct Hin as (r & Er & Hr). injection Er as <- <-.
  exists r. split; [|split; [|exact Hs]].
  - assert (Hid : In (id r) (map id pre))
      by (eapply Subseq_In; eassumption).
    apply in_map_iff in Hid. destruct Hid as (r' & E & Hr').
    rewrite <- (NoDup_map_injective id albums r' r Hnd); auto.
    unfold albums. apply in_or_app. now left.
  - rewrite HK. apply in_or_app. now left.
Qed.

(** X5. With distinct identifiers, every input record that is missing from
    the result has a near-duplicate that stands before it in the input and
    is in the result: nothing is dropped without a representative. *)
Theorem dedup_dropped_record_has_representative :
  forall (query_processor choice_processor : string -> string)
         (scorer : string -> string -> Z)
         (albums : list Album) (threshold : Z) (out : list Album)
         (pre : list Album) (item : Album) (post : list Album),
    NoDup (map id albums) ->
    deduplicate_by_name_and_add_popularity query_processor choice_processor
      scorer albums threshold
    = inr out ->
    albums = pre ++ item :: post ->
    ~ In item out ->
    exists r,
      In r pre /\ In r out
      /\ 0 <= match_score query_processor choice_processor
        scorer (name item) (name r)
      /\ threshold < match_score query_processor choice_processor
        scorer (name item) (name r).
Proof.
  intros query_processor choice_processor
    scorer albums threshold out pre item post
         Hnd Hout Halbums Hdropped. subst albums.
  destruct (unkept_item_matches_kept query_processor choice_processor
    scorer threshold
              pre item post Hnd) as (r & Hpre & Hk & Hs).
  - intros Hk. apply Hdropped.
    apply (engine_output_In query_processor choice_processor
      scorer threshold _ out item Hnd Hout).
    split; [apply in_elt | exact Hk].
  - exists r. split; [exact Hpre|]. split.
    + apply (engine_output_In query_processor choice_processor
      scorer threshold _ out r Hnd Hout).
      split; [apply in_or_app; now left | exact Hk].
    + now apply survives_true_iff in Hs.
Qed.

(** The second ["One"] is dropped; the first stands for it. *)
Lemma dedup_dropped_record_has_representative_witness :
  exists r,
    In r [album "a" "One" 10; album "b" "Two" 30]
    /\ In r [album "b" "Two" 30; album "a" "One" 10]
    /\ 0 <= match_score no_process no_process exact_scorer "One" (name r)
    /\ 99 < match_score no_process no_process exact_scorer "One" (name r).
Proof.
  apply (dedup_dropped_record_has_representative no_process no_process exact_scorer
           [album "a" "One" 10; album "b" "Two" 30; album "d" "One" 50] 99
           [album "b" "Two" 30; album "a" "One" 10]
           [album "a" "One" 10; album "b" "Two" 30] (album "d" "One" 50) []
           ltac:(repeat constructor; simpl; intuition discriminate)
           ltac:(vm_compute; reflexivity) eq_refl).
  simpl. intuition discriminate.
Defined.

(** ** An input that is already in order of popularity *)

Lemma sorted_desc_of_sorted {A : Type} (key : A -> Z) (l : list A) :
  StronglySorted (desc key) l -> sorted_desc key l = l.
Proof.
  induction 1 as [|x l Hs IH Hall]; [reflexivity|].
  simpl. rewrite IH. destruct l as [|y l]; [reflexivity|].
  simpl. inversion Hall as [|? ? Hy _]; subst. unfold desc in Hy.
  destruct (Z.ltb_spec (key x) (key y)); [lia | reflexivity].
Qed.

Lemma Subseq_StronglySorted {A : Type} (R : A -> A -> Prop) (l1 l2 : list A) :
  Subseq l1 l2 -> StronglySorted R l2 -> StronglySorted R l1.
Proof.
  induction 1; intros Hs.
  - constructor.
  - inversion Hs; subst. auto.
  - inversion Hs as [|? ? Hl Hall]; subst. constructor; [auto|].
    apply Forall_forall. intros y Hy.
    apply (proj1 (Forall_forall _ _) Hall).
    eapply Subseq_In; eassumption.
Qed.

(** X6. On an input in non-increasing order of popularity, which is how
    [create_top_tracks_playlist] calls the engine, the result is in
    non-increasing order of popularity whether or not anything was dropped;
    and with distinct identifiers the result is the input with the dropped
    records taken out, nothing moved. *)
Theorem dedup_of_sorted_input :
  forall (query_processor choice_processor : string -> string)
         (scorer : string -> string -> Z)
         (albums : list Album) (threshold : Z),
    StronglySorted (desc popularity) albums ->
    exists out,
      deduplicate_by_name_and_add_popularity query_processor choice_processor
        scorer albums threshold
      = inr out
      /\ StronglySorted (desc popularity) out
      /\ (NoDup (map id albums) -> Subseq out albums).
Proof.
  intros query_processor choice_processor scorer albums threshold Hsorted.
  destruct (engine_cases query_processor choice_processor
    scorer threshold albums)
    as [[_ H]|(_ & found & H & Hids & Hall)].
  - exists albums. split; [exact H|]. split; [exact Hsorted|].
    intros _. apply Subseq_refl.
  - exists (sorted_desc popularity found). split; [exact H|].
    split; [apply sorted_desc_sorted|].
    intros Hnd.
    assert (Hsub : Subseq found albums).
    { eapply found_Subseq; [exact Hnd | apply extractor_Subseq | exact Hall]. }
    rewrite sorted_desc_of_sorted; [exact Hsub|].
    eapply Subseq_StronglySorted; eassumption.
Qed.

(** Four records in order of popularity, the last a duplicate of the
    first. *)
Lemma dedup_of_sorted_input_witness :
  let albums := [album "a" "One" 50; album "b" "Two" 30;
                 album "c" "Three" 30; album "d" "One" 10] in
  exists out,
    deduplicate_by_name_and_add_popularity no_process no_process exact_scorer albums 99
    = inr out
    /\ StronglySorted (desc popularity) out
    /\ Subseq out albums.
Proof.
  intros albums.
  destruct (dedup_of_sorted_input no_process no_process exact_scorer albums 99)
    as (out & Hout & Hsorted & Hsub).
  - repeat constructor; unfold desc; simpl; lia.
  - exists out. split; [exact Hout|]. split; [exact Hsorted|].
    apply Hsub. repeat constructor; simpl; intuition discriminate.
Defined.

(** X7. On an input in non-increasing order of popularity with distinct
    identifiers, every record that is dropped is stood for, in the result,
    by a near-duplicate that is at least as popular: the most popular of a
    group of duplicates is the one that stays. *)
Theorem dedup_keeps_most_popular :
  forall (query_processor choice_processor : string -> string)
         (scorer : string -> string -> Z)
         (albums : list Album) (threshold : Z) (out : list Album)
         (item : Album),
    StronglySorted (desc popularity) albums ->
    NoDup (map id albums) ->
    deduplicate_by_name_and_add_popularity query_processor choice_processor
      scorer albums threshold
    = inr out ->
    In item albums ->
    ~ In item out ->
    exists r,
      In r out
      /\ popularity item <= popularity r
      /\ 0 <= match_score query_processor choice_processor
        scorer (name item) (name r)
      /\ threshold < match_score query_processor choice_processor
        scorer (name item) (name r).
Proof.
  intros query_processor choice_processor scorer albums threshold out item
         Hsorted Hnd Hout Hitem Hdropped.
  apply in_split in Hitem. destruct Hitem as (pre & post & ->).
  destruct (unkept_item_matches_kept query_processor choice_processor
    scorer threshold
              pre item post Hnd) as (r & Hpre & Hk & Hs).
  - intros Hk. apply Hdropped.
    apply (engine_output_In query_processor choice_processor
      scorer threshold _ out item Hnd Hout).
    split; [apply in_elt | exact Hk].
  - exists r. split; [|split].
    + apply (engine_output_In query_processor choice_processor
      scorer threshold _ out r Hnd Hout).
      split; [apply in_or_app; now left | exact Hk].
    + apply in_split in Hpre. destruct Hpre as (p1 & p2 & ->).
      rewrite <- app_assoc in Hsorted. simpl in Hsorted.
      clear - Hsorted. induction p1 as [|x p1 IH]; simpl in Hsorted.
      * inversion Hsorted as [|? ? _ Hall]; subst.
        apply (proj1 (Forall_forall _ _) Hall item).
        apply in_or_app. right. now left.
      * inversion Hsorted; subst. auto.
    + now apply survives_true_iff in Hs.
Qed.

(** The ["One"] of popularity 10 is dropped for the one of popularity 50. *)
Lemma dedup_keeps_most_popular_witness :
  exists r,
    In r [album "a" "One" 50; album "b" "Two" 30]
    /\ 10 <= popularity r
    /\ 0 <= match_score no_process no_process exact_scorer "One" (name r)
    /\ 99 < match_score no_process no_process exact_scorer "One" (name r).
Proof.
  apply (dedup_keeps_most_popular no_process no_process exact_scorer
           [album "a" "One" 50; album "b" "Two" 30; album "d" "One" 10] 99
           [album "a" "One" 50; album "b" "Two" 30] (album "d" "One" 10)).
  - repeat constructor; unfold desc; simpl; lia.
  - repeat constructor; simpl; intuition discriminate.
  - vm_compute. reflexivity.
  - simpl. auto.
  - simpl. intuition discriminate.
Defined.

(** ** Degenerate thresholds and whole groups of duplicates *)

(** X8. When no score exceeds the threshold (a threshold of 100 with a
    scorer that stops at 100, say), nothing is ever a duplicate and the engine
    returns its input as it is, whatever the records. *)
Theorem dedup_identity_when_threshold_bounds_scorer :
  forall (query_processor choice_processor : string -> string)
         (scorer : string -> string -> Z)
         (albums : list Album) (threshold : Z),
    (forall s1 s2, scorer s1 s2 <= threshold) ->
    deduplicate_by_name_and_add_popularity query_processor choice_processor
      scorer albums threshold
    = inr albums.
Proof.
  intros query_processor choice_processor scorer albums threshold Hbound.
  apply engine_identity_pairwise.
  intros i j a b _ _ _. apply survives_false_iff. left.
  unfold match_score. apply Hbound.
Qed.

(** Two records under the same name at threshold 100. *)
Lemma dedup_identity_when_threshold_bounds_scorer_witness :
  deduplicate_by_name_and_add_popularity no_process no_process exact_scorer
    [album "a" "One" 10; album "b" "One" 30] 100
  = inr [album "a" "One" 10; album "b" "One" 30].
Proof.
  apply (dedup_identity_when_threshold_bounds_scorer no_process no_process exact_scorer
           [album "a" "One" 10; album "b" "One" 30] 100).
  intros s1 s2. unfold exact_scorer. destruct (String.eqb s1 s2); lia.
Defined.

Lemma run_loop_keeps_none (query_processor choice_processor : string -> string)
    (scorer : string -> string -> Z) (threshold : Z) (d : dict string)
    (items : list Album) (kept : list string) :
  (forall item, In item items ->
                keeps query_processor choice_processor
                  scorer threshold d kept item = false) ->
  run_loop query_processor choice_processor
    scorer threshold d items kept = kept.
Proof.
  induction items as [|item items IH]; intros Hnone; [reflexivity|].
  cbn [run_loop fold_left]. unfold loop_body at 2.
  rewrite Hnone by now left.
  apply IH. intros. apply Hnone. now right.
Qed.

(** X9. With distinct identifiers, when every name matches every name of
    the input above the threshold, the whole input is one group of
    duplicates and the engine returns its first record alone. *)
Theorem dedup_collapses_group_to_first :
  forall (query_processor choice_processor : string -> string)
         (scorer : string -> string -> Z)
         (first : Album) (others : list Album) (threshold : Z),
    NoDup (map id (first :: others)) ->
    (forall a b,
        In a (first :: others) -> In b (first :: others) ->
        0 <= match_score query_processor choice_processor
          scorer (name a) (name b)
        /\ threshold < match_score query_processor choice_processor
          scorer (name a) (name b)) ->
    deduplicate_by_name_and_add_popularity query_processor choice_processor
      scorer
      (first :: others) threshold = inr [first].
Proof.
  intros query_processor choice_processor
    scorer first others threshold Hnd Hall.
  set (albums := first :: others) in *.
  set (d := dict_comprehension id name albums).
  assert (Hd : d = map (fun a => (id a, name a)) albums)
    by (apply dict_comprehension_distinct; exact Hnd).
  assert (Hnear : forall item r,
             In item albums -> In r albums ->
             In (id r, name r)
                (near_duplicates query_processor choice_processor
                  scorer threshold d item)).
  { intros item r Hitem Hr. apply filter_In. split.
    - rewrite Hd. now apply (in_map (fun a => (id a, name a))).
    - apply survives_true_iff. simpl. now apply Hall. }
  assert (Hkept : extractor_album_ids query_processor choice_processor
    scorer albums threshold
                  = [id first]).
  { unfold extractor_album_ids. fold d. unfold albums.
    cbn [run_loop fold_left]. unfold loop_body at 2.
    assert (Hk : keeps query_processor choice_processor
      scorer threshold d [] first = true).
    { apply keeps_true_iff. right. intros kc _ []. }
    rewrite Hk. simpl app.
    apply (run_loop_keeps_none query_processor choice_processor
      scorer threshold d others).
    intros item Hitem.
    destruct (keeps query_processor choice_processor
      scorer threshold d [id first] item) eqn:E;
      [|reflexivity].
    exfalso. apply keeps_true_iff in E.
    assert (Hi : In item albums) by now right.
    assert (Hf : In first albums) by now left.
    destruct E as [Hone|Hnone].
    - pose proof (length_one_unique _ _ _ Hone
                    (Hnear item first Hi Hf) (Hnear item item Hi Hi)) as E.
      injection E as E _. simpl in Hnd.
      inversion Hnd as [|? ? Hfirst _]; subst. apply Hfirst.
      rewrite E. now apply in_map.
    - apply (Hnone _ (Hnear item first Hi Hf)). now left. }
  unfold deduplicate_by_name_and_add_popularity. rewrite Hkept.
  destruct others as [|second others]; [reflexivity|].
  cbn [List.length Nat.eqb negb mapM].
  rewrite (dict_get_NoDup _ (id first) first).
  - reflexivity.
  - apply dict_comprehension_NoDup.
  - rewrite (dict_comprehension_distinct id (fun album : Album => album))
      by exact Hnd.
    now left.
Qed.

(** Three releases under one name. *)
Lemma dedup_collapses_group_to_first_witness :
  deduplicate_by_name_and_add_popularity no_process no_process exact_scorer
    [album "a" "Hits" 10; album "b" "Hits" 30; album "c" "Hits" 20] 99
  = inr [album "a" "Hits" 10].
Proof.
  apply (dedup_collapses_group_to_first no_process no_process exact_scorer
           (album "a" "Hits" 10) [album "b" "Hits" 30; album "c" "Hits" 20]).
  - repeat constructor; simpl; intuition discriminate.
  - intros a b Ha Hb. simpl in Ha, Hb.
    destruct Ha as [<-|[<-|[<-|[]]]], Hb as [<-|[<-|[<-|[]]]];
      (split; [apply Z.leb_le | apply Z.ltb_lt]; reflexivity).
Defined.

(** ** The chunks, counted and measured *)

Lemma range_len_ceiling (n chunk_size : Z) :
  0 <= n -> 0 < chunk_size ->
  range_len 0 n chunk_size = (n + chunk_size - 1) / chunk_size.
Proof.
  intros Hn Hpos. unfold range_len.
  destruct (Z.ltb_spec 0 chunk_size) as [_|?]; [|lia].
  destruct (Z.ltb_spec 0 n) as [Hlt|Hge].
  - replace (n + chunk_size - 1) with (n - 0 - 1 + 1 * chunk_size) by lia.
    rewrite Z.div_add by lia. reflexivity.
  - replace n with 0 by lia. simpl. symmetry. apply Z.div_small. lia.
Qed.

(** X10. For a positive chunk size the number of chunks is the length of
    the list divided by the size, rounded up, and every chunk holds at least
    one element and at most [chunk_size]: no request is made for an empty
    batch or for one above the size. *)
Theorem chunks_count_and_sizes :
  forall (T : Type) (list_ : list T) (chunk_size : Z),
    0 < chunk_size ->
    exists cks,
      chunks list_ chunk_size = inr cks
      /\ Z.of_nat (List.length cks)
         = (Z.of_nat (List.length list_) + chunk_size - 1) / chunk_size
      /\ Forall (fun ck => 1 <= Z.of_nat (List.length ck) <= chunk_size) cks.
Proof.
  intros T list_ chunk_size Hpos.
  set (n := List.length list_).
  set (c := Z.to_nat chunk_size).
  set (count := Z.to_nat (range_len 0 (Z.of_nat n) chunk_size)).
  destruct (range_len_bounds (Z.of_nat n) chunk_size ltac:(lia) Hpos)
    as (Hc0 & Hzero & _ & Hlow).
  exists (map (chunk_at c list_) (seq 0 count)).
  split; [now apply chunks_positive|]. split.
  - rewrite length_map, length_seq. unfold count.
    rewrite Z2Nat.id by exact Hc0. apply range_len_ceiling; lia.
  - apply Forall_forall. intros ck Hck. apply in_map_iff in Hck.
    destruct Hck as (i & <- & Hi). apply in_seq in Hi.
    rewrite chunk_at_length. fold n.
    assert (Hn : 0 < Z.of_nat n).
    { destruct (Z.eq_dec (Z.of_nat n) 0) as [E|E]; [|lia].
      unfold count in Hi. rewrite (Hzero E) in Hi. simpl in Hi. lia. }
    specialize (Hlow Hn).
    assert (Hic : (i * c < n)%nat) by (unfold count, c in *; nia).
    unfold c in *. nia.
Qed.

(** Forty-one identifiers in batches of twenty make three requests. *)
Lemma chunks_count_and_sizes_witness :
  exists cks,
    chunks (seq 0 41) ARTIST_CHUNK_SIZE = inr cks
    /\ List.length cks = 3%nat
    /\ Forall (fun ck : list nat => 1 <= Z.of_nat (List.length ck) <= 20) cks.
Proof.
  destruct (chunks_count_and_sizes nat (seq 0 41) ARTIST_CHUNK_SIZE)
    as (cks & Heq & Hcount & Hsizes).
  - reflexivity.
  - exists cks. split; [exact Heq|]. split; [|exact Hsizes].
    change ((Z.of_nat (List.length (seq 0 41)) + ARTIST_CHUNK_SIZE - 1)
              / ARTIST_CHUNK_SIZE) with 3 in Hcount.
    lia.
Defined.

(** X11. For a positive chunk size, answering each chunk element by element
    and chaining the answers gives what answering the whole list element by
    element gives: cutting a list into batches changes nothing in the
    result. *)
Theorem chunks_batching_is_transparent :
  forall (T U : Type) (f : T -> U) (list_ : list T) (chunk_size : Z),
    0 < chunk_size ->
    exists cks,
      chunks list_ chunk_size = inr cks
      /\ concat (map (map f) cks) = map f list_.
Proof.
  intros T U f list_ chunk_size Hpos.
  set (c := Z.to_nat chunk_size).
  set (count := Z.to_nat (range_len 0 (Z.of_nat (List.length list_))
                                    chunk_size)).
  destruct (range_len_bounds (Z.of_nat (List.length list_)) chunk_size
              ltac:(lia) Hpos) as (_ & _ & Hup & _).
  exists (map (chunk_at c list_) (seq 0 count)).
  split; [now apply chunks_positive|].
  rewrite <- concat_map, concat_chunk_at. f_equal.
  apply firstn_all2. unfold count, c. nia.
Qed.

(** Seven numbers doubled, three at a time. *)
Lemma chunks_batching_is_transparent_witness :
  exists cks,
    chunks [1; 2; 3; 4; 5; 6; 7] 3 = inr cks
    /\ concat (map (map (Z.mul 2)) cks) = [2; 4; 6; 8; 10; 12; 14].
Proof.
  apply (chunks_batching_is_transparent Z Z (Z.mul 2) [1; 2; 3; 4; 5; 6; 7] 3).
  reflexivity.
Defined.

(** X12. A non-empty list no longer than the chunk size comes back as one
    chunk, the list itself. *)
Theorem chunks_single_chunk :
  forall (T : Type) (list_ : list T) (chunk_size : Z),
    list_ <> [] ->
    Z.of_nat (List.length list_) <= chunk_size ->
    chunks list_ chunk_size = inr [list_].
Proof.
  intros T list_ chunk_size Hne Hle.
  assert (Hn : 0 < Z.of_nat (List.length list_))
    by (destruct list_; [contradiction | simpl; lia]).
  rewrite chunks_positive by lia.
  unfold range_len.
  destruct (Z.ltb_spec 0 chunk_size) as [_|?]; [|lia].
  destruct (Z.ltb_spec 0 (Z.of_nat (List.length list_))) as [_|?]; [|lia].
  rewrite Z.div_small by lia. simpl. unfold chunk_at. simpl.
  rewrite firstn_all2 by lia. reflexivity.
Qed.

(** Three identifiers and room for a hundred. *)
Lemma chunks_single_chunk_witness :
  chunks ["a"; "b"; "c"] PLAYLIST_CHUNK_SIZE = inr [["a"; "b"; "c"]].
Proof.
  apply chunks_single_chunk.
  - discriminate.
  - simpl. unfold PLAYLIST_CHUNK_SIZE. lia.
Defined.

(** ** Walking the pages of a listing *)

Section PageFacts.
Variable next_page : ArtistAlbums -> ArtistAlbums.

Local Notation loop' := (simplified_artist_albums_loop next_page).

Lemma loop_collects_pages (cur : ArtistAlbums) (ps : list ArtistAlbums) :
  Pages next_page cur ps ->
  forall (fuel : nat) (all : list Album) (log : list call),
    (List.length ps <= fuel)%nat ->
    loop' fuel cur all log
    = Returned (all ++ concat (map items ps))
               (log ++ map Call_next (removelast (cur :: ps))).
Proof.
  induction 1 as [p Hlast|p u ps Hnext Hps IH]; intros fuel all log Hfuel.
  - destruct fuel; simpl; rewrite Hlast; unfold unit_;
      now rewrite !app_nil_r.
  - destruct fuel as [|fuel]; [simpl in Hfuel; lia|].
    cbn [simplified_artist_albums_loop]. rewrite Hnext.
    unfold and_then, request.
    rewrite IH by (simpl in Hfuel; lia).
    cbn [map concat]. rewrite <- !app_assoc.
    change (removelast (p :: next_page p :: ps))
      with (p :: removelast (next_page p :: ps)).
    reflexivity.
Qed.

(** Whatever the fuel, the loop only adds requests for a next page to the
    log, and never raises. *)
Lemma loop_log (fuel : nat) :
  forall (cur : ArtistAlbums) (all : list Album) (log : list call),
    (exists result pages,
        loop' fuel cur all log = Returned result (log ++ map Call_next pages))
    \/ (exists pages,
           loop' fuel cur all log = OutOfFuel (log ++ map Call_next pages)).
Proof.
  induction fuel as [|fuel IH]; intros cur all log; simpl.
  - destruct (next cur).
    + right. exists []. now rewrite app_nil_r.
    + left. exists all, []. unfold unit_. now rewrite app_nil_r.
  - destruct (next cur).
    + unfold and_then, request.
      destruct (IH (next_page cur) (all ++ items (next_page cur))
                   (log ++ [Call_next cur]))
        as [(result & pages & ->)|(pages & ->)].
      * left. exists result, (cur :: pages).
        now rewrite <- app_assoc.
      * right. exists (cur :: pages). now rewrite <- app_assoc.
    + left. exists all, []. unfold unit_. now rewrite app_nil_r.
Qed.

Lemma loop_endless (fuel : nat) :
  forall (cur : ArtistAlbums) (all : list Album) (log : list call),
    (forall k, next (Nat.iter k next_page cur) <> None) ->
    exists log',
      loop' fuel cur all log = OutOfFuel log'
      /\ List.length log' = (List.length log + fuel)%nat.
Proof.
  induction fuel as [|fuel IH]; intros cur all log Hnext; simpl.
  - destruct (next cur) eqn:E; [|now elim (Hnext 0%nat)].
    exists log. split; [reflexivity | lia].
  - destruct (next cur) eqn:E; [|now elim (Hnext 0%nat)].
    unfold and_then, request.
    destruct (IH (next_page cur) (all ++ items (next_page cur))
                 (log ++ [Call_next cur])) as (log' & -> & Hlen).
    + intros k. specialize (Hnext (S k)).
      rewrite Nat.iter_succ_r in Hnext. exact Hnext.
    + exists log'. split; [reflexivity|].
      rewrite Hlen, length_app. simpl. lia.
Qed.
End PageFacts.

(** X13. When the pages after the first form a finite chain that ends in a
    page without a next one, [simplified_artist_albums] returns the items of
    the first page followed by the items of every later page, in order; it
    asks for the page after each page but the last, once, in order; and any
    allowance of turns that covers the chain gives the same. *)
Theorem simplified_artist_albums_collects_every_page :
  forall (next_page : ArtistAlbums -> ArtistAlbums)
         (first_page : ArtistAlbums) (later : list ArtistAlbums)
         (fuel : nat) (log : list call),
    Pages next_page first_page later ->
    (List.length later <= fuel)%nat ->
    simplified_artist_albums next_page fuel first_page log
    = Returned (items first_page ++ concat (map items later))
               (log ++ map Call_next (removelast (first_page :: later))).
Proof.
  intros next_page first_page later fuel log Hpages Hfuel.
  unfold simplified_artist_albums.
  now apply loop_collects_pages.
Qed.

(** Three pages: two requests, three albums. *)
Lemma simplified_artist_albums_collects_every_page_witness :
  simplified_artist_albums example_next_page 5 page1 []
  = Returned [album "a" "One" 0; album "b" "Two" 0; album "c" "Three" 0]
             [Call_next page1; Call_next page2].
Proof.
  apply (simplified_artist_albums_collects_every_page example_next_page
           page1 [page2; page3] 5 []).
  - apply (Pages_more example_next_page page1 "page2" [page3] eq_refl).
    apply (Pages_more example_next_page page2 "page3" [] eq_refl).
    apply Pages_last. reflexivity.
  - simpl. lia.
Defined.

(** X14. When every page reached names a next page, the loop of
    [simplified_artist_albums] does not end: whatever number of turns it is
    allowed, it uses them all, one request a turn, and has returned
    nothing. *)
Theorem simplified_artist_albums_endless_listing :
  forall (next_page : ArtistAlbums -> ArtistAlbums)
         (first_page : ArtistAlbums) (fuel : nat) (log : list call),
    (forall k, next (Nat.iter k next_page first_page) <> None) ->
    exists log',
      simplified_artist_albums next_page fuel first_page log = OutOfFuel log'
      /\ List.length log' = (List.length log + fuel)%nat.
Proof.
  intros next_page first_page fuel log Hnext.
  unfold simplified_artist_albums. now apply loop_endless.
Qed.

(** A service that answers every request with the same page. *)
Lemma simplified_artist_albums_endless_listing_witness :
  exists log',
    simplified_artist_albums (fun p => p) 7 page1 [] = OutOfFuel log'
    /\ List.length log' = 7%nat.
Proof.
  apply (simplified_artist_albums_endless_listing (fun p => p) page1 7 []).
  intros k. induction k as [|k IH]; simpl; [discriminate | exact IH].
Defined.

(** ** Helpers on chunks and on sorted input *)

Lemma chunks_concat {T : Type} (l : list T) (chunk_size : Z)
    (cks : list (list T)) :
  0 < chunk_size -> chunks l chunk_size = inr cks -> concat cks = l.
Proof.
  intros Hpos Hcks. rewrite chunks_positive in Hcks by exact Hpos.
  injection Hcks as <-. rewrite concat_chunk_at. apply firstn_all2.
  destruct (range_len_bounds (Z.of_nat (List.length l)) chunk_size
              ltac:(lia) Hpos) as (_ & _ & Hup & _).
  nia.
Qed.

Lemma chunks_sizes {T : Type} (l : list T) (chunk_size : Z)
    (cks : list (list T)) :
  0 < chunk_size -> chunks l chunk_size = inr cks ->
  Forall (fun ck => 1 <= Z.of_nat (List.length ck) <= chunk_size) cks.
Proof.
  intros Hpos Hcks. rewrite chunks_positive in Hcks by exact Hpos.
  injection Hcks as <-.
  set (n := List.length l).
  set (c := Z.to_nat chunk_size).
  set (count := Z.to_nat (range_len 0 (Z.of_nat n) chunk_size)).
  destruct (range_len_bounds (Z.of_nat n) chunk_size ltac:(lia) Hpos)
    as (Hc0 & Hzero & _ & Hlow).
  apply Forall_forall. intros ck Hck. apply in_map_iff in Hck.
  destruct Hck as (i & <- & Hi). apply in_seq in Hi.
  rewrite chunk_at_length. fold n.
  assert (Hn : 0 < Z.of_nat n).
  { destruct (Z.eq_dec (Z.of_nat n) 0) as [E|E]; [|lia].
    unfold count in Hi. rewrite (Hzero E) in Hi. simpl in Hi. lia. }
  specialize (Hlow Hn).
  assert (Hic : (i * c < n)%nat) by (unfold count, c in *; nia).
  unfold c in *. nia.
Qed.

Lemma engine_sorted_output (query_processor choice_processor : string -> string)
    (scorer : string -> string -> Z) (albums out : list Album)
    (threshold : Z) :
  StronglySorted (desc popularity) albums ->
  deduplicate_by_name_and_add_popularity query_processor choice_processor
    scorer albums threshold
  = inr out ->
  StronglySorted (desc popularity) out.
Proof.
  intros Hsorted Hout.
  destruct (engine_cases query_processor choice_processor
    scorer threshold albums)
    as [[_ H]|(_ & found & H & _)];
    rewrite H in Hout; injection Hout as <-.
  - exact Hsorted.
  - apply sorted_desc_sorted.
Qed.

(** ** Building the playlist *)

Lemma for_each_request {A B : Type} (c : A -> call) (answer : A -> B)
    (l : list A) (log : list call) :
  for_each (fun x => request (c x) (answer x)) l log
  = Returned (map answer l) (log ++ map c l).
Proof.
  revert log. induction l as [|x l IH]; intros log; simpl.
  - unfold unit_. now rewrite app_nil_r.
  - unfold and_then, request at 1. rewrite IH. unfold unit_.
    now rewrite <- app_assoc.
Qed.

Lemma chunks_returns {T : Type} (l : list T) (chunk_size : Z) :
  0 < chunk_size -> exists cks, chunks l chunk_size = inr cks.
Proof. intros H. rewrite chunks_positive by exact H. eauto. Qed.

Section PlaylistFacts.
Variable artist_albums : string -> Z -> ArtistAlbums.
Variable next_page : ArtistAlbums -> ArtistAlbums.
Variable albums_of : list string -> list FullAlbum.
Variable tracks_of : list string -> list Album.
Variable user_playlist_create : string -> string -> Playlist.
Variable query_processor : string -> string.
Variable choice_processor : string -> string.
Variable token_sort_ratio : string -> string -> Z.

Local Notation create' :=
  (create_top_tracks_playlist artist_albums next_page albums_of tracks_of
     user_playlist_create query_processor choice_processor token_sort_ratio).

(** The log of a run, part by part. *)
Lemma create_top_tracks_playlist_run (fuel : nat) (username : string)
    (artist : Artist) :
  let first_call := Call_artist_albums (artist_id artist) 50 in
  let title := (artist_name artist ++ " by Popularity")%string in
  (exists pages all cks1 cks2 out cks3,
      simplified_artist_albums next_page fuel
        (artist_albums (artist_id artist) 50) [first_call]
      = Returned all ([first_call] ++ map Call_next pages)
      /\ chunks (map id all) ARTIST_CHUNK_SIZE = inr cks1
      /\ chunks (map track_id
                   (filter (by_artist artist)
                      (concat (map tracks_items
                                 (concat (map albums_of cks1))))))
                TRACK_CHUNK_SIZE = inr cks2
      /\ deduplicate_by_name_and_add_popularity query_processor choice_processor
        token_sort_ratio
           (sorted_desc popularity (concat (map tracks_of cks2))) 99
         = inr out
      /\ chunks (map id out) PLAYLIST_CHUNK_SIZE = inr cks3
      /\ create' fuel username artist []
         = Returned tt
             (([first_call] ++ map Call_next pages)
                ++ map Call_albums cks1
                ++ map Call_tracks cks2
                ++ [Call_spotify_scope "playlist-modify-public";
                    Call_user_playlist_create username title]
                ++ map (Call_playlist_add_items
                          (playlist_id (user_playlist_create username title)))
                       cks3
                ++ [Call_print artist]))
  \/ (exists pages,
         simplified_artist_albums next_page fuel
           (artist_albums (artist_id artist) 50) [first_call]
         = OutOfFuel ([first_call] ++ map Call_next pages)
         /\ create' fuel username artist []
            = OutOfFuel ([first_call] ++ map Call_next pages)).
Proof.
  intros first_call title.
  destruct (loop_log next_page fuel (artist_albums (artist_id artist) 50)
              (items (artist_albums (artist_id artist) 50)) [first_call])
    as [(all & pages & Hloop)|(pages & Hloop)].
  - left.
    destruct (chunks_returns (map id all) ARTIST_CHUNK_SIZE eq_refl)
      as (cks1 & H1).
    destruct (chunks_returns
                (map track_id
                   (filter (by_artist artist)
                      (concat (map tracks_items
                                 (concat (map albums_of cks1))))))
                TRACK_CHUNK_SIZE eq_refl) as (cks2 & H2).
    destruct (engine_returns query_processor choice_processor
      token_sort_ratio 99
                (sorted_desc popularity (concat (map tracks_of cks2))))
      as (out & H3).
    destruct (chunks_returns (map id out) PLAYLIST_CHUNK_SIZE eq_refl)
      as (cks3 & H4).
    exists pages, all, cks1, cks2, out, cks3.
    repeat (split; [assumption|]).
    unfold create_top_tracks_playlist.
    unfold and_then at 1. unfold request at 1. simpl app.
    unfold and_then at 1. unfold simplified_artist_albums.
    fold first_call. rewrite Hloop.
    unfold and_then at 1. unfold lift at 1. rewrite H1.
    unfold and_then at 1. rewrite for_each_request.
    unfold and_then at 1. unfold lift at 1. rewrite H2.
    unfold and_then at 1. rewrite for_each_request.
    unfold and_then at 1. unfold lift at 1. rewrite H3.
    unfold and_then at 1. unfold request at 1.
    unfold and_then at 1. unfold request at 1.
    unfold and_then at 1. unfold lift at 1. rewrite H4.
    unfold and_then at 1. rewrite for_each_request.
    unfold request. fold title.
    f_equal. rewrite <- !app_assoc. reflexivity.
  - right. exists pages. split; [exact Hloop|].
    unfold create_top_tracks_playlist.
    unfold and_then at 1. unfold request at 1. simpl app.
    unfold and_then at 1. unfold simplified_artist_albums.
    fold first_call. rewrite Hloop. reflexivity.
Qed.
End PlaylistFacts.

Lemma flat_map_map_nil {A B C : Type} (f : B -> list C) (c : A -> B)
    (l : list A) :
  (forall x, f (c x) = []) -> flat_map f (map c l) = [].
Proof.
  intros H. induction l as [|x l IH]; simpl; [reflexivity|].
  now rewrite H, IH.
Qed.

Lemma flat_map_map_singleton {A B : Type} (f : B -> list A) (c : A -> B)
    (l : list A) :
  (forall x, f (c x) = [x]) -> flat_map f (map c l) = l.
Proof.
  intros H. induction l as [|x l IH]; simpl; [reflexivity|].
  now rewrite H, IH.
Qed.

(** The batches of a log that has the shape of a completed run. *)
Lemma run_log_batches (artist : Artist) (pages : list ArtistAlbums)
    (cks1 cks2 cks3 : list (list string)) (username title pid : string) :
  let log :=
    ([Call_artist_albums (artist_id artist) 50] ++ map Call_next pages)
      ++ map Call_albums cks1
      ++ map Call_tracks cks2
      ++ [Call_spotify_scope "playlist-modify-public";
          Call_user_playlist_create username title]
      ++ map (Call_playlist_add_items pid) cks3
      ++ [Call_print artist] in
  album_batches log = cks1
  /\ track_batches log = cks2
  /\ added_batches log = cks3.
Proof.
  intros log. unfold log, album_batches, track_batches, added_batches.
  rewrite !flat_map_app.
  rewrite !(flat_map_map_nil _ Call_next) by reflexivity.
  repeat split.
  - rewrite (flat_map_map_singleton _ Call_albums) by reflexivity.
    rewrite (flat_map_map_nil _ Call_tracks) by reflexivity.
    rewrite (flat_map_map_nil _ (Call_playlist_add_items pid))
      by reflexivity.
    simpl. now rewrite app_nil_r.
  - rewrite (flat_map_map_nil _ Call_albums) by reflexivity.
    rewrite (flat_map_map_singleton _ Call_tracks) by reflexivity.
    rewrite (flat_map_map_nil _ (Call_playlist_add_items pid))
      by reflexivity.
    simpl. now rewrite app_nil_r.
  - rewrite (flat_map_map_nil _ Call_albums) by reflexivity.
    rewrite (flat_map_map_nil _ Call_tracks) by reflexivity.
    rewrite (flat_map_map_singleton _ (Call_playlist_add_items pid))
      by reflexivity.
    simpl. now rewrite app_nil_r.
Qed.

(** X15. [create_top_tracks_playlist] raises nothing of its own: the chunk
    sizes are positive and no lookup of the engine fails, so a run either
    completes or is still walking the pages of the listing; and it completes
    whenever the listing ends within the turns allowed. *)
Theorem create_top_tracks_playlist_raises_nothing :
  forall (artist_albums : string -> Z -> ArtistAlbums)
         (next_page : ArtistAlbums -> ArtistAlbums)
         (albums_of : list string -> list FullAlbum)
         (tracks_of : list string -> list Album)
         (user_playlist_create : string -> string -> Playlist)
         (query_processor choice_processor : string -> string)
         (token_sort_ratio : string -> string -> Z)
         (fuel : nat) (username : string) (artist : Artist),
    let run := create_top_tracks_playlist artist_albums next_page albums_of
                 tracks_of user_playlist_create query_processor choice_processor
                   token_sort_ratio
                 fuel username artist [] in
    (forall e log, run <> Raised e log)
    /\ (forall later,
           Pages next_page (artist_albums (artist_id artist) 50) later ->
           (List.length later <= fuel)%nat ->
           exists log, run = Returned tt log).
Proof.
  intros artist_albums next_page albums_of tracks_of user_playlist_create
         query_processor choice_processor
           token_sort_ratio fuel username artist run.
  destruct (create_top_tracks_playlist_run artist_albums next_page albums_of
              tracks_of user_playlist_create query_processor choice_processor
                token_sort_ratio
              fuel username artist)
    as [(pages & all & cks1 & cks2 & out & cks3 & _ & _ & _ & _ & _ & Hrun)
       |(pages & Hloop & Hrun)];
    fold run in Hrun.
  - split; [intros e log; rewrite Hrun; discriminate | eauto].
  - split; [intros e log; rewrite Hrun; discriminate|].
    intros later Hpages Hfuel. exfalso.
    unfold simplified_artist_albums in Hloop.
    rewrite (loop_collects_pages next_page _ later Hpages fuel _ _ Hfuel)
      in Hloop.
    discriminate Hloop.
Qed.

(** The run of the example client, computed. *)
Lemma example_run :
  create_top_tracks_playlist example_artist_albums example_next_page
    example_albums_of example_tracks_of example_user_playlist_create
    no_process no_process exact_scorer 5 "me" example_artist []
  = Returned tt example_log.
Proof. vm_compute. reflexivity. Qed.

Lemma example_pages : Pages example_next_page page1 [page2; page3].
Proof.
  apply (Pages_more example_next_page page1 "page2" [page3] eq_refl).
  apply (Pages_more example_next_page page2 "page3" [] eq_refl).
  apply Pages_last. reflexivity.
Qed.

(** A listing of three pages walked with five turns allowed. *)
Lemma create_top_tracks_playlist_raises_nothing_witness :
  exists log,
    create_top_tracks_playlist example_artist_albums example_next_page
      example_albums_of example_tracks_of example_user_playlist_create
      no_process no_process exact_scorer 5 "me" example_artist []
    = Returned tt log.
Proof.
  destruct (create_top_tracks_playlist_raises_nothing example_artist_albums
              example_next_page example_albums_of example_tracks_of
              example_user_playlist_create no_process no_process exact_scorer
              5 "me" example_artist) as [_ Hreturns].
  apply (Hreturns [page2; page3]).
  - exact example_pages.
  - simpl. lia.
Defined.

Lemma Returned_log_inj {A : Type} (x y : A) (log log' : list call) :
  Returned x log = Returned y log' -> log = log'.
Proof. intros H. now injection H. Qed.

(** Splits a [Forall] over a log into its parts and closes the parts that
    hold of every call of one kind. *)
Ltac split_log :=
  repeat first [rewrite Forall_cons_iff | rewrite Forall_app];
  repeat split;
  try exact I;
  try apply Forall_nil;
  try (apply Forall_map, Forall_forall; intros; exact I).

Section PlaylistProperties.
Variable artist_albums : string -> Z -> ArtistAlbums.
Variable next_page : ArtistAlbums -> ArtistAlbums.
Variable albums_of : list string -> list FullAlbum.
Variable tracks_of : list string -> list Album.
Variable user_playlist_create : string -> string -> Playlist.
Variable query_processor : string -> string.
Variable choice_processor : string -> string.
Variable token_sort_ratio : string -> string -> Z.

Local Notation create' :=
  (create_top_tracks_playlist artist_albums next_page albums_of tracks_of
     user_playlist_create query_processor choice_processor token_sort_ratio).
Local Notation run_cases :=
  (create_top_tracks_playlist_run artist_albums next_page albums_of tracks_of
     user_playlist_create query_processor choice_processor token_sort_ratio).

(** X16. In a completed run every request for albums carries between 1 and
    20 identifiers, every request for tracks between 1 and 50, and every
    addition to the playlist between 1 and 100: no batch is empty and none
    is above the size set for it. *)
Theorem create_top_tracks_playlist_batches_within_size :
  forall (fuel : nat) (username : string) (artist : Artist)
         (log : list call),
    create' fuel username artist [] = Returned tt log ->
    Forall batch_within log.
Proof.
  intros fuel username artist log Hlog.
  destruct (run_cases fuel username artist)
    as [(pages & all & cks1 & cks2 & out & cks3
         & _ & H1 & H2 & _ & H4 & Hrun)
       |(pages & _ & Hrun)];
    rewrite Hrun in Hlog; [|discriminate].
  injection Hlog as <-.
  split_log.
  - apply Forall_map. apply (chunks_sizes _ ARTIST_CHUNK_SIZE _ eq_refl H1).
  - apply Forall_map. apply (chunks_sizes _ TRACK_CHUNK_SIZE _ eq_refl H2).
  - apply Forall_map.
    apply (chunks_sizes _ PLAYLIST_CHUNK_SIZE _ eq_refl H4).
Qed.

(** X17. In a completed run the identifiers added to the playlist, batch
    after batch, are the identifiers of what the engine returns for the
    tracks the client answered with, sorted by popularity and deduplicated at
    threshold 99; they go in in non-increasing order of popularity, and each
    belongs to a track the client answered with. *)
Theorem create_top_tracks_playlist_adds_ranked_tracks :
  forall (fuel : nat) (username : string) (artist : Artist)
         (log : list call),
    create' fuel username artist [] = Returned tt log ->
    let artist_tracks := concat (map tracks_of (track_batches log)) in
    exists out,
      deduplicate_by_name_and_add_popularity query_processor choice_processor
        token_sort_ratio
        (sorted_desc popularity artist_tracks) 99 = inr out
      /\ concat (added_batches log) = map id out
      /\ StronglySorted (desc popularity) out
      /\ (forall r, In r out -> In r artist_tracks).
Proof.
  intros fuel username artist log Hlog artist_tracks.
  destruct (run_cases fuel username artist)
    as [(pages & all & cks1 & cks2 & out & cks3
         & _ & _ & _ & H3 & H4 & Hrun)
       |(pages & _ & Hrun)];
    rewrite Hrun in Hlog; [|discriminate].
  apply Returned_log_inj in Hlog. subst log.
  destruct (run_log_batches artist pages cks1 cks2 cks3 username
              (artist_name artist ++ " by Popularity")
              (playlist_id (user_playlist_create username
                              (artist_name artist ++ " by Popularity"))))
    as (_ & Htracks & Hadded).
  unfold artist_tracks. rewrite Htracks, Hadded.
  exists out. split; [exact H3|]. split; [|split].
  - apply (chunks_concat _ PLAYLIST_CHUNK_SIZE _ eq_refl H4).
  - eapply engine_sorted_output; [apply sorted_desc_sorted | exact H3].
  - intros r Hr.
    destruct (engine_output_kept query_processor choice_processor
      token_sort_ratio 99 _ _ H3)
      as [_ Hin].
    apply (sorted_desc_In popularity). now apply Hin.
Qed.

(** X18. In a completed run the identifiers asked the albums of, chained,
    are the identifiers of the albums the listing gave, in order; the
    identifiers asked the tracks of, chained, are those of the tracks of the
    albums answered that list the artist among their artists, in order, and
    of no other track. *)
Theorem create_top_tracks_playlist_requests :
  forall (fuel : nat) (username : string) (artist : Artist)
         (log : list call),
    create' fuel username artist [] = Returned tt log ->
    let listed :=
      concat (map tracks_items
                (concat (map albums_of (album_batches log)))) in
    (exists all log1,
        simplified_artist_albums next_page fuel
          (artist_albums (artist_id artist) 50)
          [Call_artist_albums (artist_id artist) 50]
        = Returned all log1
        /\ concat (album_batches log) = map id all)
    /\ concat (track_batches log)
       = map track_id (filter (by_artist artist) listed)
    /\ (forall i,
           In i (concat (track_batches log)) ->
           exists track,
             In track listed
             /\ track_id track = i
             /\ In (artist_id artist) (map artist_id (track_artists track))).
Proof.
  intros fuel username artist log Hlog listed.
  destruct (run_cases fuel username artist)
    as [(pages & all & cks1 & cks2 & out & cks3
         & Hloop & H1 & H2 & _ & _ & Hrun)
       |(pages & _ & Hrun)];
    rewrite Hrun in Hlog; [|discriminate].
  apply Returned_log_inj in Hlog. subst log.
  destruct (run_log_batches artist pages cks1 cks2 cks3 username
              (artist_name artist ++ " by Popularity")
              (playlist_id (user_playlist_create username
                              (artist_name artist ++ " by Popularity"))))
    as (Halbums & Htracks & _).
  unfold listed. rewrite Halbums, Htracks.
  assert (Hasked : concat cks2
                   = map track_id
                       (filter (by_artist artist)
                          (concat (map tracks_items
                                     (concat (map albums_of cks1))))))
    by apply (chunks_concat _ TRACK_CHUNK_SIZE _ eq_refl H2).
  split; [|split].
  - exists all, ([Call_artist_albums (artist_id artist) 50]
                   ++ map Call_next pages).
    split; [exact Hloop|].
    apply (chunks_concat _ ARTIST_CHUNK_SIZE _ eq_refl H1).
  - exact Hasked.
  - intros i Hi. rewrite Hasked in Hi. apply in_map_iff in Hi.
    destruct Hi as (track & Hid & Htrack). apply filter_In in Htrack.
    destruct Htrack as [Hlisted Hby]. exists track.
    split; [exact Hlisted|]. split; [exact Hid|].
    now apply mem_true_iff.
Qed.

(** X19. A completed run reads first and writes after: its log is the reads
    of the catalogue, then the creation of one playlist, for the user and
    under the artist's name followed by [" by Popularity"], then additions to
    that playlist only, then the message. *)
Theorem create_top_tracks_playlist_reads_then_writes :
  forall (fuel : nat) (username : string) (artist : Artist)
         (log : list call),
    create' fuel username artist [] = Returned tt log ->
    let title := (artist_name artist ++ " by Popularity")%string in
    exists reads batches,
      log = reads
              ++ [Call_spotify_scope "playlist-modify-public";
                  Call_user_playlist_create username title]
              ++ map (Call_playlist_add_items
                        (playlist_id (user_playlist_create username title)))
                     batches
              ++ [Call_print artist]
      /\ Forall is_read reads.
Proof.
  intros fuel username artist log Hlog title.
  destruct (run_cases fuel username artist)
    as [(pages & all & cks1 & cks2 & out & cks3
         & _ & _ & _ & _ & _ & Hrun)
       |(pages & _ & Hrun)];
    rewrite Hrun in Hlog; [|discriminate].
  apply Returned_log_inj in Hlog. subst log.
  exists (([Call_artist_albums (artist_id artist) 50] ++ map Call_next pages)
            ++ map Call_albums cks1 ++ map Call_tracks cks2), cks3.
  split.
  - rewrite <- !app_assoc. reflexivity.
  - split_log.
Qed.

(** X20. A run that is still walking the listing when its turns are used up
    has written nothing: its log holds reads of the catalogue only, no
    playlist was created and nothing was added. *)
Theorem create_top_tracks_playlist_unfinished_writes_nothing :
  forall (fuel : nat) (username : string) (artist : Artist)
         (log : list call),
    create' fuel username artist [] = OutOfFuel log ->
    Forall is_read log.
Proof.
  intros fuel username artist log Hlog.
  destruct (run_cases fuel username artist)
    as [(pages & all & cks1 & cks2 & out & cks3
         & _ & _ & _ & _ & _ & Hrun)
       |(pages & _ & Hrun)];
    rewrite Hrun in Hlog; [discriminate|].
  injection Hlog as <-.
  split_log.
Qed.

(** X21. For an artist whose listing is one page without albums, the run
    asks for that page, creates the playlist and prints its message: it makes
    no request for albums or tracks and adds nothing, and the playlist stays
    empty. *)
Theorem create_top_tracks_playlist_no_albums :
  forall (fuel : nat) (username : string) (artist : Artist),
    items (artist_albums (artist_id artist) 50) = [] ->
    next (artist_albums (artist_id artist) 50) = None ->
    create' fuel username artist []
    = Returned tt
        [Call_artist_albums (artist_id artist) 50;
         Call_spotify_scope "playlist-modify-public";
         Call_user_playlist_create username
           (artist_name artist ++ " by Popularity");
         Call_print artist].
Proof.
  intros fuel username artist Hitems Hnext.
  unfold create_top_tracks_playlist.
  unfold and_then at 1. unfold request at 1. simpl app.
  unfold and_then at 1. unfold simplified_artist_albums.
  assert (Hloop : forall log,
             simplified_artist_albums_loop next_page fuel
               (artist_albums (artist_id artist) 50)
               (items (artist_albums (artist_id artist) 50)) log
             = Returned [] log).
  { intros log. rewrite Hitems.
    destruct fuel; simpl; rewrite Hnext; reflexivity. }
  rewrite Hloop. reflexivity.
Qed.
End PlaylistProperties.

(** The example run: one request for three albums, one for three tracks,
    one addition of one track. *)
Lemma create_top_tracks_playlist_batches_within_size_witness :
  Forall batch_within example_log.
Proof.
  exact (create_top_tracks_playlist_batches_within_size
           example_artist_albums example_next_page example_albums_of
           example_tracks_of example_user_playlist_create no_process no_process
           exact_scorer 5 "me" example_artist example_log example_run).
Defined.

(** The example run: the three tracks share a name, one is added. *)
Lemma create_top_tracks_playlist_adds_ranked_tracks_witness :
  exists out,
    concat (added_batches example_log) = map id out
    /\ StronglySorted (desc popularity) out.
Proof.
  destruct (create_top_tracks_playlist_adds_ranked_tracks
              example_artist_albums example_next_page example_albums_of
              example_tracks_of example_user_playlist_create no_process no_process
              exact_scorer 5 "me" example_artist example_log example_run)
    as (out & _ & Hadded & Hsorted & _).
  exists out. split; assumption.
Defined.

(** The example run: of the six tracks listed, the three by the artist are
    asked for. *)
Lemma create_top_tracks_playlist_requests_witness :
  concat (track_batches example_log)
  = map track_id
      (filter (by_artist example_artist)
         (concat (map tracks_items
                    (concat (map example_albums_of
                               (album_batches example_log)))))).
Proof.
  destruct (create_top_tracks_playlist_requests
              example_artist_albums example_next_page example_albums_of
              example_tracks_of example_user_playlist_create no_process no_process
              exact_scorer 5 "me" example_artist example_log example_run)
    as (_ & Hasked & _).
  exact Hasked.
Defined.

(** The example run: five reads, then the playlist, one addition, the
    message. *)
Lemma create_top_tracks_playlist_reads_then_writes_witness :
  exists reads batches,
    example_log
    = reads
        ++ [Call_spotify_scope "playlist-modify-public";
            Call_user_playlist_create "me" "Band by Popularity"]
        ++ map (Call_playlist_add_items "playlist") batches
        ++ [Call_print example_artist]
    /\ Forall is_read reads.
Proof.
  exact (create_top_tracks_playlist_reads_then_writes
           example_artist_albums example_next_page example_albums_of
           example_tracks_of example_user_playlist_create no_process no_process
           exact_scorer 5 "me" example_artist example_log example_run).
Defined.

(** A client that answers every request for a next page with the same
    page, and two turns allowed. *)
Lemma create_top_tracks_playlist_unfinished_writes_nothing_witness :
  Forall is_read
    [Call_artist_albums "band" 50; Call_next page1; Call_next page1].
Proof.
  apply (create_top_tracks_playlist_unfinished_writes_nothing
           example_artist_albums (fun p => p) example_albums_of
           example_tracks_of example_user_playlist_create no_process no_process
           exact_scorer 2 "me" example_artist).
  vm_compute. reflexivity.
Defined.

(** A listing of one empty page. *)
Lemma create_top_tracks_playlist_no_albums_witness :
  create_top_tracks_playlist (fun _ _ => page [] None) example_next_page
    example_albums_of example_tracks_of example_user_playlist_create
    no_process no_process exact_scorer 0 "me" example_artist []
  = Returned tt
      [Call_artist_albums "band" 50;
       Call_spotify_scope "playlist-modify-public";
       Call_user_playlist_create "me" "Band by Popularity";
       Call_print example_artist].
Proof.
  apply (create_top_tracks_playlist_no_albums
           (fun _ _ => page [] None) example_next_page example_albums_of
           example_tracks_of example_user_playlist_create no_process no_process
           exact_scorer 0 "me" example_artist); reflexivity.
Defined.

(** ** The version string *)

Lemma prefix_app (p s t : string) :
  String.prefix p s = true -> String.prefix p (s ++ t)%string = true.
Proof.
  revert s. induction p as [|c p IH]; intros s H;
    [destruct (s ++ t)%string; reflexivity|].
  destruct s as [|c' s]; simpl in *; [discriminate|].
  destruct (Ascii.ascii_dec c c'); [now apply IH | discriminate].
Qed.

Lemma contains_app (c : Ascii.ascii) (s t : string) :
  contains c (s ++ t)%string = contains c s || contains c t.
Proof.
  induction s as [|c' s IH]; simpl; [reflexivity|].
  now rewrite IH, orb_assoc.
Qed.

Lemma split_not_nil (sep : Ascii.ascii) (s : string) : split sep s <> [].
Proof.
  induction s as [|c s IH]; simpl; [discriminate|].
  destruct (Ascii.eqb c sep); [discriminate|].
  destruct (split sep s); discriminate.
Qed.

(** A piece free of the separator, then the separator: the piece is the
    first element of the split. *)
Lemma split_piece (sep : Ascii.ascii) (piece rest : string) :
  contains sep piece = false ->
  split sep (piece ++ String sep rest)%string = piece :: split sep rest.
Proof.
  induction piece as [|c piece IH]; simpl; intros Hfree.
  - now rewrite Ascii.eqb_refl.
  - apply orb_false_iff in Hfree. destruct Hfree as [Hc Hfree].
    rewrite Hc, (IH Hfree). reflexivity.
Qed.

Lemma split_free (sep : Ascii.ascii) (s : string) :
  contains sep s = false -> split sep s = [s].
Proof.
  induction s as [|c s IH]; simpl; intros Hfree; [reflexivity|].
  apply orb_false_iff in Hfree. destruct Hfree as [Hc Hfree].
  now rewrite Hc, (IH Hfree).
Qed.

Lemma get_version_skips (pre rest : list string) :
  (forall l, In l pre -> String.prefix "__version__" l = false) ->
  get_version (pre ++ rest) = get_version rest.
Proof.
  induction pre as [|l pre IH]; intros Hpre; [reflexivity|].
  simpl app. cbn [get_version]. rewrite (Hpre l) by now left.
  apply IH. intros. apply Hpre. now right.
Qed.

(** X22. [get_version] returns what stands between the first two double
    quotes of the first line that starts with [__version__], whatever comes
    before that line that does not start so and whatever comes after; when
    that line has no double quote at all, it returns what stands between its
    first two single quotes. *)
Theorem get_version_reads_first_quoted :
  forall (pre : list string) (start version tail : string)
         (post : list string),
    (forall l, In l pre -> String.prefix "__version__" l = false) ->
    String.prefix "__version__" start = true ->
    (contains double_quote start = false ->
     contains double_quote version = false ->
     get_version
       (pre ++ (start ++ String double_quote
                           (version ++ String double_quote tail))%string
            :: post)
     = inr version)
    /\ (contains double_quote start = false ->
        contains double_quote version = false ->
        contains double_quote tail = false ->
        contains single_quote start = false ->
        contains single_quote version = false ->
        get_version
          (pre ++ (start ++ String single_quote
                              (version ++ String single_quote tail))%string
               :: post)
        = inr version).
Proof.
  intros pre start version tail post Hpre Hstart. split.
  - intros Hs Hv. rewrite get_version_skips by exact Hpre.
    cbn [get_version]. rewrite (prefix_app _ _ _ Hstart).
    rewrite contains_app. cbn [contains].
    rewrite Ascii.eqb_refl, orb_true_r.
    rewrite (split_piece _ _ _ Hs), (split_piece _ _ _ Hv). reflexivity.
  - intros Hs Hv Ht Hs' Hv'. rewrite get_version_skips by exact Hpre.
    cbn [get_version]. rewrite (prefix_app _ _ _ Hstart).
    assert (Hnone : contains double_quote
                      (start ++ String single_quote
                                  (version ++ String single_quote tail))%string
                    = false).
    { rewrite contains_app. cbn [contains]. rewrite contains_app.
      cbn [contains]. rewrite Hs, Hv, Ht. reflexivity. }
    rewrite Hnone.
    rewrite (split_piece _ _ _ Hs'), (split_piece _ _ _ Hv'). reflexivity.
Qed.

(** A module with a docstring line, then its version. *)
Lemma get_version_reads_first_quoted_witness :
  get_version ["# package"; "__version__ = '0.1.2'"; "__author__ = 'me'"]
  = inr "0.1.2".
Proof.
  destruct (get_version_reads_first_quoted ["# package"] "__version__ = "
              "0.1.2" "" ["__author__ = 'me'"]) as [_ Hsingle].
  - intros l [<-|[]]. reflexivity.
  - reflexivity.
  - apply Hsingle; reflexivity.
Defined.

(** X23. [get_version] fails in two ways: with [RuntimeError] when no line
    starts with [__version__], and with [IndexError] when the first line
    that does holds no quote of either kind, even if a later line holds a
    quoted version. *)
Theorem get_version_failures :
  forall (pre : list string) (line : string) (post : list string),
    (forall l, In l pre -> String.prefix "__version__" l = false) ->
    get_version pre = inl (RuntimeError "Unable to find version string.")
    /\ (String.prefix "__version__" line = true ->
        contains double_quote line = false ->
        contains single_quote line = false ->
        get_version (pre ++ line :: post) = inl IndexError).
Proof.
  intros pre line post Hpre. split.
  - rewrite <- (app_nil_r pre). rewrite get_version_skips by exact Hpre.
    reflexivity.
  - intros Hline Hdq Hsq. rewrite get_version_skips by exact Hpre.
    cbn [get_version]. rewrite Hline, Hdq, (split_free _ _ Hsq). reflexivity.
Qed.

(** A version written without quotes, and a file without a version. *)
Lemma get_version_failures_witness :
  get_version ["import os"]
  = inl (RuntimeError "Unable to find version string.")
  /\ get_version ["import os"; "__version__ = 1"; "__version__ = '2'"]
     = inl IndexError.
Proof.
  destruct (get_version_failures ["import os"] "__version__ = 1"
              ["__version__ = '2'"]) as [Hnone Hbare].
  - intros l [<-|[]]. reflexivity.
  - split; [exact Hnone|]. apply Hbare; reflexivity.
Defined.
